(** * mem-fs-editor: copy resolution, delete and commit over an in-memory store

    A shallow embedding of [copyAsync] / [_copySingleAsync]
    (src/actions/copy-async.ts) and [deleteAction] / [deleteFile]
    (src/actions/delete.ts), together with the parts of the editor they call
    and with [read] and [commitFileAsync], which are modelled from the
    specification and the test-suites.

    Paths and file contents are strings.  A thrown JavaScript exception is a
    value [Err e] of the error monad [Result]; an awaited promise is the value
    it resolves to.  The glob, path and template libraries are external
    collaborators: they are gathered in the record [Env], and every operation
    is parameterised by an environment. *)

From Stdlib Require Import List String Ascii Bool ZArith Lia ListSet.
Import ListNotations.
Local Open Scope string_scope.
Local Open Scope list_scope.

(** ** Sources *)

(** [from: string | string[]] *)
Inductive From : Type :=
| FromString (s : string)
| FromArray (l : list string).

Definition isArray (from : From) : bool :=
  match from with FromArray _ => true | FromString _ => false end.

(** ** Errors *)

Inductive Error : Type :=
| NoMatchError (from : From)
    (* assert(..., 'Trying to copy from a source that does not exist: ' + from) *)
| DestinationShapeError
    (* assert(..., 'When copying multiple files, provide a directory as destination') *)
| IncompatibleStoreError
    (* new Error('Current mem-fs is not compatible with append') *)
| TypeError (method : string)
    (* calling a method the store object does not have *)
| IOError (path : string)
    (* a rejected or throwing fs call *)
| ReadError (path : string)
    (* read of a path without contents *)
| GlobError (pattern : string).
    (* raised by globify *)

(** Errors raised by [assert]. *)
Definition isAssertionError (e : Error) : bool :=
  match e with
  | NoMatchError _ | DestinationShapeError => true
  | _ => false
  end.

Inductive Result (A : Type) : Type :=
| Ok (a : A)
| Err (e : Error).

Arguments Ok {A} a.
Arguments Err {A} e.

Definition bind {A B : Type} (r : Result A) (k : A -> Result B) : Result B :=
  match r with
  | Ok a => k a
  | Err e => Err e
  end.

Notation "'do' x <- r ; k" := (bind r (fun x => k))
  (at level 10, x name, r at level 100, k at level 200).

(** A left-to-right loop whose body may throw. *)
Fixpoint foldM {A B : Type} (f : A -> B -> Result A) (l : list B) (a : A) : Result A :=
  match l with
  | [] => Ok a
  | b :: l' => do a' <- f a b ; foldM f l' a'
  end.

(** [xs.map(f).flat()] where [f] may throw. *)
Fixpoint flatMapM {A B : Type} (f : A -> Result (list B)) (l : list A) : Result (list B) :=
  match l with
  | [] => Ok []
  | a :: l' => do bs <- f a ; do rest <- flatMapM f l' ; Ok (bs ++ rest)
  end.

(** ** Files, the disk and the store *)

Inductive FileState : Type := STATE_MODIFIED | STATE_DELETED.

(** [fs.Stats], reduced to the permission bits the editor looks at. *)
Record Stats : Type := { mode : Z }.

(** A vinyl file as the editor uses it.  [contents = None] is JavaScript's
    [null]; [state = None] is an absent state (unmodified). *)
Record File : Type := {
  path : string;
  contents : option string;
  state : option FileState;
  stat : option Stats;
  history : list string
}.

(** What the real file system holds at a path. *)
Inductive Node : Type :=
| RegularFile (data : string) (perm : Z)
| Directory.

Definition Disk : Type := string -> option Node.

(** The mem-fs store: a [Map] from path to file, iterated in insertion order.
    [legacy] is true for a store object without an [existsInMemory] method. *)
Record Store : Type := {
  files : list File;
  legacy : bool
}.

Definition GlobOptions : Type := list string.
Definition Data : Type := list (string * string).

(** [{ from, resolvedFrom }] *)
Record ResolvedFrom : Type := {
  rfrom : string;
  resolvedFrom : string
}.

(** ** External collaborators *)

Record Env : Type := {
  (* path.resolve *)
  resolve : string -> string;
  (* path.relative, path.join *)
  relative : string -> string -> string;
  join : string -> string -> string;
  (* normalize-path *)
  normalize : string -> string;
  (* globby / fast-glob *)
  isDynamicPattern : string -> bool;
  globby : list string -> option GlobOptions -> list string;
  (* tinyglobby *)
  globSync : list string -> GlobOptions -> list string;
  (* multimatch(paths, patterns) *)
  multimatch : list string -> list string -> list string;
  (* ../util.js *)
  globify1 : string -> Result (list string);
  getCommonPath : From -> string;
  resolveFromPaths : From -> string -> list ResolvedFrom;
  resolveGlobOptions : bool -> bool -> bool -> bool;
  render : string -> Data -> string;
  (* the file system the calls run against *)
  disk : Disk
}.

(** [globify] of an array is the concatenation of [globify] of its elements. *)
Definition globify (E : Env) (paths : list string) : Result (list string) :=
  flatMapM (globify1 E) paths.

(** ** The store interface (mem-fs) *)

Section Editor.

Variable E : Env.

Definition keyIs (k : string) (f : File) : bool := String.eqb (path f) k.

(** The record held under the key [path.resolve(p)], if one is loaded. *)
Definition peek (S : Store) (p : string) : option File :=
  find (keyIs (resolve E p)) (files S).

(** [store.existsInMemory(p)], on a store that has the method. *)
Definition existsInMemory (S : Store) (p : string) : bool :=
  match peek S p with Some _ => true | None => false end.

(** [store.existsInMemory?.(p)]: [None] is [undefined]. *)
Definition existsInMemory_opt (S : Store) (p : string) : option bool :=
  if legacy S then None else Some (existsInMemory S p).

(** [store.existsInMemory(p)] called unguarded: a missing method throws. *)
Definition existsInMemory_call (S : Store) (p : string) : Result bool :=
  if legacy S then Err (TypeError "existsInMemory") else Ok (existsInMemory S p).

(** [loadFile]: read the file from disk, or make a record without contents. *)
Definition loadFile (p : string) : File :=
  match disk E p with
  | Some (RegularFile data perm) =>
      {| path := p; contents := Some data; state := None;
         stat := Some {| mode := perm |}; history := [p] |}
  | _ =>
      {| path := p; contents := None; state := None; stat := None; history := [p] |}
  end.

(** [store.get(p)]: the loaded record, or the one just loaded from disk, which
    is then kept in the store. *)
Definition get (S : Store) (p : string) : File * Store :=
  match peek S p with
  | Some f => (f, S)
  | None =>
      let f := loadFile (resolve E p) in
      (f, {| files := files S ++ [f]; legacy := legacy S |})
  end.

(** [Map.set]: an existing key keeps its place, a new key goes last. *)
Fixpoint setKey (f : File) (l : list File) : list File :=
  match l with
  | [] => [f]
  | g :: l' => if keyIs (path f) g then f :: l' else g :: setKey f l'
  end.

(** [store.add(file)] *)
Definition add (f : File) (S : Store) : Store :=
  {| files := setKey f (files S); legacy := legacy S |}.

(** ** state.js *)

Definition isFileStateDeleted (f : File) : bool :=
  match state f with Some STATE_DELETED => true | _ => false end.

Definition isFileStateModified (f : File) : bool :=
  match state f with Some STATE_MODIFIED => true | _ => false end.

Definition setDeletedFileState (f : File) : File :=
  {| path := path f; contents := contents f; state := Some STATE_DELETED;
     stat := stat f; history := history f |}.

Definition setModifiedFileState (f : File) : File :=
  {| path := path f; contents := contents f; state := Some STATE_MODIFIED;
     stat := stat f; history := history f |}.

Definition setContents (c : option string) (f : File) : File :=
  {| path := path f; contents := c; state := state f;
     stat := stat f; history := history f |}.

(** ** delete.ts *)

(** [deleteFile(path, store)] *)
Definition deleteFile (p : string) (S : Store) : Store :=
  let '(file, S1) := get S p in
  let file := setDeletedFileState file in
  let file := setContents None file in
  add file S1.

Definition hasMatch (pats : list string) (p : string) : bool :=
  match multimatch E [normalize E p] pats with
  | [] => false
  | _ :: _ => true
  end.

(** One iteration of the loop over [paths]; the accumulator is
    [(onStoreFiles, notFound)], two insertion-ordered sets.  Both calls of
    [store.get] are on a path that is in memory, so they leave the store as
    it is (lemma [get_in_memory]). *)
Definition classify (S : Store) (acc : list string * list string) (filePath : string)
  : Result (list string * list string) :=
  let '(onStoreFiles, notFound) := acc in
  do inMemory <- existsInMemory_call S filePath ;
  if negb inMemory then
    Ok (onStoreFiles, set_add string_dec filePath notFound)
  else
    match contents (fst (get S filePath)) with
    | Some _ => Ok (set_add string_dec filePath onStoreFiles, notFound)
    | None =>
        if negb (isFileStateDeleted (fst (get S filePath))) then
          Ok (onStoreFiles, set_add string_dec filePath notFound)
        else Ok (onStoreFiles, notFound)
    end.

(** [ps.forEach((p) => { if (c(p)) deleteFile(p, store) })] *)
Definition deleteIf (c : string -> bool) (ps : list string) (S : Store) : Store :=
  fold_left (fun s p => if c p then deleteFile p s else s) ps S.

Definition deleteAll (ps : list string) (S : Store) : Store :=
  deleteIf (fun _ => true) ps S.

(** [store.each] with the callback of [deleteAction].  The callback only
    touches keys that are already in the map (the keys of mem-fs are resolved
    paths), so the iteration visits the keys present when it starts. *)
Definition deleteMatching (pats : list string) (S : Store) : Store :=
  deleteIf (hasMatch pats) (map path (files S)) S.

Record DeleteOptions : Type := { d_globOptions : option GlobOptions }.

(** [options.globOptions || {}] *)
Definition deleteGlobOptions (options : DeleteOptions) : GlobOptions :=
  match d_globOptions options with Some g => g | None => [] end.

(** The part of [deleteAction] after the patterns are known: the files found
    on disk, then the store entries that match. *)
Definition deleteGlobbed (pats : list string) (options : DeleteOptions) (S : Store) : Store :=
  let found := map (resolve E) (globSync E pats (deleteGlobOptions options)) in
  deleteMatching pats (deleteAll found S).

(** [if (!Array.isArray(paths)) paths = [paths]] *)
Definition asArray (paths : From) : list string :=
  match paths with FromString s => [s] | FromArray l => l end.

(** Lines 27-37: [(onStoreFiles, notFound)]. *)
Definition classifyAll (S : Store) (paths : list string)
  : Result (list string * list string) :=
  foldM (classify S) paths ([], []).

Definition deleteAction (S : Store) (paths : From) (options : DeleteOptions) : Result Store :=
  let paths := asArray paths in
  do sets <- classifyAll S paths ;
  let '(onStoreFiles, notFound) := sets in
  do pats <- globify E notFound ;
  let S2 := deleteGlobbed pats options S in
  Ok (deleteAll onStoreFiles S2).

(** ** Editor methods that copy-async.ts calls

    write.ts, append.ts, copy.ts and exists.ts are not part of the sources
    embedded here; these definitions follow the specification. *)

(** Modelled from the spec: [exists] (exists.ts is missing).  A path exists
    when the record the store gives for it has contents; a deletion tombstone
    and a path that is neither loaded nor on disk do not. *)
Definition exists_ (S : Store) (p : string) : bool :=
  match contents (fst (get S p)) with Some _ => true | None => false end.

(** Modelled from the spec: [write] (write.ts is missing).  The record of the
    path is changed in place: new contents, [state = modified].  Writing the
    contents a record already has does not add it again. *)
Definition write (S : Store) (p : string) (c : string) : Store :=
  let '(file, S1) := get S p in
  match contents file with
  | Some old =>
      if String.eqb old c then S1
      else add (setContents (Some c) (setModifiedFileState file)) S1
  | None => add (setContents (Some c) (setModifiedFileState file)) S1
  end.

(** Modelled from the spec: [_write] (write.ts is missing).  A new record
    enters the store with [state = modified]. *)
Definition _write (S : Store) (file : File) : Store :=
  add (setModifiedFileState file) S.

(** Modelled from the spec: [append] (append.ts is missing).  "Concatenate new
    content after existing content instead of overwriting"; with [create], a
    destination without contents is written afresh. *)
Definition append_ (S : Store) (to : string) (c : string) (create : bool) : Result Store :=
  match contents (fst (get S to)) with
  | Some old => Ok (write S to (old ++ c))
  | None => if create then Ok (write S to c) else Err (ReadError to)
  end.

(** ** copy-async.ts *)

Record CopyAsyncOptions : Type := {
  processFile : option (string -> Result string);
  append : bool;
  globOptions : option GlobOptions;
  processDestinationPath : option (string -> string);
  ignoreNoMatch : bool
}.

(** The promise of [processFile] resolves to the new contents or rejects;
    [Buffer.from] is the identity on contents. *)
Definition applyProcessingFileFunc (pf : string -> Result string) (filename : string)
  : Result string :=
  pf filename.

Definition renderFilepath (filepath : string) (context : option Data) : string :=
  match context with
  | None => filepath
  | Some c => render E filepath c
  end.

Definition getOneFile (filepath : string) : option string :=
  let resolved := resolve E filepath in
  match disk E resolved with
  | Some (RegularFile _ _) => Some resolved
  | _ => None
  end.

(** [fs.statSync(p).isDirectory()]; [statSync] throws on a missing path. *)
Definition statSync_isDirectory (p : string) : Result bool :=
  match disk E p with
  | Some Directory => Ok true
  | Some (RegularFile _ _) => Ok false
  | None => Err (IOError p)
  end.

(** [fsPromises.stat(p)] *)
Definition fsStat (p : string) : Result Stats :=
  match disk E p with
  | Some (RegularFile _ perm) => Ok {| mode := perm |}
  | Some Directory => Ok {| mode := 0%Z |}
  | None => Err (IOError p)
  end.

(** A value used as a condition: [undefined] is falsy. *)
Definition truthy (o : option bool) : bool :=
  match o with Some b => b | None => false end.

Definition includes (l : list string) (x : string) : bool :=
  existsb (String.eqb x) l.

Definition nonEmpty {A : Type} (l : list A) : bool :=
  match l with [] => false | _ :: _ => true end.

(** The single-file copies [copyAsync] starts. *)
Inductive CopyCall : Type :=
| CopySingle (from to : string)        (* this._copySingle(from, to, options) *)
| CopySingleAsync (from to : string).  (* this._copySingleAsync(from, to, options) *)

(** Lines 63-75: a string that is an existing file is copied as it is. *)
Definition fastPath (S : Store) (from : From) : option (string -> CopyCall) :=
  match from with
  | FromArray _ => None
  | FromString s =>
      if truthy (existsInMemory_opt S s) && exists_ S s then Some (CopySingle s)
      else match getOneFile s with
           | Some oneFile => Some (CopySingleAsync oneFile)
           | None => None
           end
  end.

Definition inStore (S : Store) (r : ResolvedFrom) : bool :=
  truthy (existsInMemory_opt S (resolvedFrom r)).

(** Lines 86-97: the sources held by the store, and the ones left to glob. *)
Definition literalStoreFiles (S : Store) (rs : list ResolvedFrom) : list string :=
  map resolvedFrom (filter (inStore S) rs).

Definition globResolvedOf (S : Store) (rs : list ResolvedFrom) : list ResolvedFrom :=
  filter (fun r => negb (inStore S r)) rs.

(** Lines 104-110: the test of the [store.each] callback. *)
Definition virtualMatch (diskFiles patterns : list string) (file : File) : bool :=
  let normalizedFilepath := normalize E (path file) in
  negb (includes diskFiles normalizedFilepath)
  && negb (isDynamicPattern E normalizedFilepath)
  && nonEmpty (multimatch E [normalizedFilepath] patterns).

(** Lines 103-113: the paths the callback pushes, in store order. *)
Definition scanStore (diskFiles patterns : list string) (S : Store) : list string :=
  map path (filter (virtualMatch diskFiles patterns) (files S)).

Record Resolved : Type := {
  diskFiles : list string;
  storeFiles : list string;
  globResolved : list ResolvedFrom
}.

(** Lines 77-114. *)
Definition resolveSources (S : Store) (from : From) (options : CopyAsyncOptions)
  : Result Resolved :=
  let fromBasePath := getCommonPath E from in
  let resolvedFromPaths := resolveFromPaths E from fromBasePath in
  let storeFiles0 := literalStoreFiles S resolvedFromPaths in
  let globResolved0 := globResolvedOf S resolvedFromPaths in
  if nonEmpty globResolved0 then
    do patterns <- flatMapM (fun file => globify1 E (rfrom file)) globResolved0 ;
    let diskFiles0 := globby E patterns (globOptions options) in
    Ok {| diskFiles := diskFiles0;
          storeFiles := storeFiles0 ++ scanStore diskFiles0 patterns S;
          globResolved := globResolved0 |}
  else
    Ok {| diskFiles := []; storeFiles := storeFiles0; globResolved := globResolved0 |}.

Definition hasDynamicPattern (from : From) : bool :=
  existsb (fun f => isDynamicPattern E (normalize E (rfrom f)))
          (resolveFromPaths E from (getCommonPath E from)).

Definition preferFiles (from : From) (options : CopyAsyncOptions) : bool :=
  resolveGlobOptions E false (hasDynamicPattern from)
    (match globOptions options with Some _ => true | None => false end).

(** Line 123. *)
Definition treatToAsDir (from : From) (options : CopyAsyncOptions) (r : Resolved) : bool :=
  isArray from || negb (preferFiles from options) || nonEmpty (globResolved r).

(** Lines 124-136: the destination of each file, or the failed assertion. *)
Definition destinationOf (S : Store) (from : From) (to : string)
    (options : CopyAsyncOptions) (r : Resolved) : Result (string -> string) :=
  if treatToAsDir from options r then
    do ok <- (if negb (exists_ S to) then Ok true else statSync_isDirectory to) ;
    if ok then
      let processDestinationPath :=
        match processDestinationPath options with Some g => g | None => fun p => p end in
      Ok (fun filepath =>
            let toFile := relative E (getCommonPath E from) filepath in
            processDestinationPath (join E to toFile))
    else Err DestinationShapeError
  else Ok (fun _ => to).

(** [copyAsync], up to the single-file copies it starts: the one of lines 67
    or 73, or the ones handed to [Promise.all].  The result is the list of
    these calls; a failed assertion is an error and starts none.  (The record
    that [this.exists(to)] may load into the store is not tracked here.) *)
Definition copyAsync (S : Store) (from : From) (to : string)
    (options : CopyAsyncOptions) (context : option Data) : Result (list CopyCall) :=
  let to := resolve E to in
  match fastPath S from with
  | Some call => Ok [call (renderFilepath to context)]
  | None =>
      do r <- resolveSources S from options ;
      if negb (ignoreNoMatch options || nonEmpty (diskFiles r) || nonEmpty (storeFiles r))
      then Err (NoMatchError from)
      else
        do generateDestination <- destinationOf S from to options r ;
        Ok (map (fun file =>
                   CopySingleAsync file (renderFilepath (generateDestination file) context))
                (diskFiles r)
            ++ map (fun file =>
                   CopySingle file (renderFilepath (generateDestination file) context))
                (storeFiles r))
  end.

(** The paths copied, in the order of the calls. *)
Definition copiedFrom (c : CopyCall) : string :=
  match c with CopySingle f _ | CopySingleAsync f _ => f end.

(** [new File({ path: to, history: [from] })]: vinyl appends a new path to the
    history. *)
Definition vinylHistory (from to : string) : list string :=
  if String.eqb from to then [from] else [from; to].

(** Modelled from the spec: [_copySingle] (copy.ts is missing).  The content
    comes from the store, else from disk; with [append] on a destination the
    store holds, the new content goes after the old one, and a store without
    the existence check is refused; otherwise a new record is written with the
    history of the source followed by the destination. *)
Definition _copySingle (S : Store) (from to : string) (options : CopyAsyncOptions)
  : Result Store :=
  let '(file, S1) := get S from in
  match contents file with
  | None => Err (ReadError from)
  | Some c =>
      let fresh :=
        _write S1 {| path := resolve E to; contents := Some c; state := None;
                     stat := stat file; history := history file ++ [resolve E to] |} in
      if append options then
        match existsInMemory_opt S1 to with
        | None => Err IncompatibleStoreError
        | Some true => append_ S1 to c true
        | Some false => Ok fresh
        end
      else Ok fresh
  end.

(** Lines 155-193. *)
Definition _copySingleAsync (S : Store) (from to : string) (options : CopyAsyncOptions)
  : Result Store :=
  match processFile options with
  | None => _copySingle S from to options
  | Some pf =>
      let from := resolve E from in
      do contents <- applyProcessingFileFunc pf from ;
      let written :=
        do st <- fsStat from ;
        Ok (_write S {| path := to; contents := Some contents; state := None;
                        stat := Some st; history := vinylHistory from to |}) in
      if append options then
        match existsInMemory_opt S to with
        | None => Err IncompatibleStoreError
        | Some true => append_ S to contents true
        | Some false => written
        end
      else written
  end.

End Editor.

(** ** read.ts

    Modelled from the spec: [read] (read.ts is missing; the behaviour is the one
    the test-suite of [read] pins down).  The record comes from [store.get];
    without contents, the caller's default is returned when the options have
    one (be it the empty string or [null]) and the call throws otherwise. *)

Record ReadOptions : Type := {
  raw : bool;
  (* [None]: no [defaults] key; [Some None]: [defaults: null] *)
  defaults : option (option string)
}.

Definition read (E : Env) (S : Store) (filepath : string) (options : ReadOptions)
  : Result (option string) * Store :=
  let '(file, S1) := get E S filepath in
  match contents file with
  | Some c => (Ok (Some c), S1)
  | None =>
      match defaults options with
      | Some d => (Ok d, S1)
      | None => (Err (ReadError filepath), S1)
      end
  end.

(** ** commit-file-async.ts

    Modelled from the spec: [commitFileAsync] (commit-file-async.ts is missing).
    A record with [state = deleted] is removed from disk if present; one with
    [state = modified] has its parent directory ensured and its contents
    written, its permission mode compared with the mode on disk and applied
    only when it differs, and is then reset to unmodified with its [stat]
    refreshed; any other record is left alone.  The file-system calls made are
    returned as a trace. *)

Inductive Syscall : Type :=
| SysMkdir (dir : string)
| SysWriteFile (p data : string)
| SysChmod (p : string) (m : Z)
| SysRm (p : string).

Definition isWrite (c : Syscall) : bool :=
  match c with SysWriteFile _ _ => true | _ => false end.

Definition isChmod (c : Syscall) : bool :=
  match c with SysChmod _ _ => true | _ => false end.

Definition updDisk (d : Disk) (p : string) (n : option Node) : Disk :=
  fun q => if String.eqb q p then n else d q.

(** [mode & 0o777] *)
Definition permBits (m : Z) : Z := Z.land m 511%Z.

Record Committed : Type := {
  c_disk : Disk;
  c_store : Store;
  c_file : File;
  c_trace : list Syscall
}.

Section Commit.

(* path.dirname, and the umask of the process *)
Variable dirname : string -> string.
Variable umask : Z.

Definition ensureDir (d : Disk) (dir : string) : Result (Disk * list Syscall) :=
  match d dir with
  | Some Directory => Ok (d, [])
  | Some (RegularFile _ _) => Err (IOError dir)
  | None => Ok (updDisk d dir (Some Directory), [SysMkdir dir])
  end.

(** [fs.writeFile(p, data, { mode })]: the mode only counts when the file is
    created, and the umask is taken off it. *)
Definition writeFile (d : Disk) (p data : string) (m : option Z)
  : Result (Disk * list Syscall) :=
  match d p with
  | Some Directory => Err (IOError p)
  | Some (RegularFile _ perm) =>
      Ok (updDisk d p (Some (RegularFile data perm)), [SysWriteFile p data])
  | None =>
      let asked := match m with Some m => m | None => 438%Z end in
      Ok (updDisk d p (Some (RegularFile data (Z.land asked (Z.lnot umask)))),
          [SysWriteFile p data])
  end.

(** [fs.chmod(p, m)] *)
Definition chmod (d : Disk) (p : string) (m : Z) : Disk :=
  match d p with
  | Some (RegularFile data _) => updDisk d p (Some (RegularFile data (Z.land m 4095%Z)))
  | _ => d
  end.

(** The mode of the record against the mode on disk. *)
Definition applyMode (d : Disk) (p : string) (m : option Z) : Disk * list Syscall :=
  match m, d p with
  | Some m, Some (RegularFile _ perm) =>
      if Z.eqb (permBits perm) (permBits m) then (d, [])
      else (chmod d p m, [SysChmod p m])
  | _, _ => (d, [])
  end.

Definition diskStat (d : Disk) (p : string) : option Stats :=
  match d p with
  | Some (RegularFile _ perm) => Some {| mode := perm |}
  | _ => None
  end.

(** The record after a commit: unmodified, with the metadata given. *)
Definition committedFile (file : File) (st : option Stats) : File :=
  {| path := path file; contents := contents file; state := None;
     stat := st; history := history file |}.

Definition commitFileAsync (d : Disk) (S : Store) (file : File) : Result Committed :=
  match state file with
  | None => Ok {| c_disk := d; c_store := S; c_file := file; c_trace := [] |}
  | Some STATE_DELETED =>
      let file' := committedFile file None in
      match d (path file) with
      | None => Ok {| c_disk := d; c_store := add file' S; c_file := file'; c_trace := [] |}
      | Some _ =>
          Ok {| c_disk := updDisk d (path file) None; c_store := add file' S;
                c_file := file'; c_trace := [SysRm (path file)] |}
      end
  | Some STATE_MODIFIED =>
      match contents file with
      | None => Err (TypeError "writeFile")
      | Some data =>
          let m := match stat file with Some st => Some (mode st) | None => None end in
          do made <- ensureDir d (dirname (path file)) ;
          do written <- writeFile (fst made) (path file) data m ;
          let moded := applyMode (fst written) (path file) m in
          let file' := committedFile file (diskStat (fst moded) (path file)) in
          Ok {| c_disk := fst moded; c_store := add file' S; c_file := file';
                c_trace := snd made ++ snd written ++ snd moded |}
      end
  end.

End Commit.

(** ** Notions used in the statements *)

(** A deletion tombstone: no contents, [state = deleted]. *)
Definition isTomb (f : File) : Prop :=
  contents f = None /\ state f = Some STATE_DELETED.

(** The key [k] holds a tombstone. *)
Definition tombed (S : Store) (k : string) : Prop :=
  exists f, find (keyIs k) (files S) = Some f /\ isTomb f.

(** Every key is a resolved path, as mem-fs keeps them. *)
Definition canonical (E : Env) (S : Store) : Prop :=
  forall f, In f (files S) -> resolve E (path f) = path f.

(** The record [deleteFile] puts in the store. *)
Definition entomb (f : File) : File := setContents None (setDeletedFileState f).

(** The disk a commit of a modified record leaves behind. *)
Definition settled (dirname : string -> string) (d : Disk) (f : File) (data : string) : Prop :=
  d (dirname (path f)) = Some Directory
  /\ exists perm, d (path f) = Some (RegularFile data perm)
                  /\ forall st, stat f = Some st -> permBits perm = permBits (mode st).

(** The contents a single-file copy carries: the output of [processFile] when
    there is one, else the contents of the source. *)
Definition copiedContents (E : Env) (S : Store) (from : string)
    (options : CopyAsyncOptions) : Result string :=
  match processFile options with
  | Some pf => applyProcessingFileFunc pf (resolve E from)
  | None =>
      match contents (fst (get E S from)) with
      | Some c => Ok c
      | None => Err (ReadError from)
      end
  end.

(** ** A small world to run the operations in

    Absolute POSIX paths that are already resolved and normalised; a glob
    matcher with [*] (any run of characters without a slash) and [**] (any
    run of characters); a disk given by a list of entries. *)

Module Posix.

Definition slash : ascii := "/"%char.
Definition star : ascii := "*"%char.

Fixpoint wild (p : string) : string -> bool :=
  match p with
  | EmptyString => fun s => match s with EmptyString => true | _ => false end
  | String c p1 =>
      if Ascii.eqb c star then
        match p1 with
        | String c1 p2 =>
            if Ascii.eqb c1 star then
              fix anyRun (s : string) : bool :=
                wild p2 s || match s with
                             | EmptyString => false
                             | String _ s' => anyRun s'
                             end
            else
              fix segmentRun (s : string) : bool :=
                wild p1 s || match s with
                             | EmptyString => false
                             | String d s' => negb (Ascii.eqb d slash) && segmentRun s'
                             end
        | EmptyString =>
            fix segmentRun (s : string) : bool :=
              match s with
              | EmptyString => true
              | String d s' => negb (Ascii.eqb d slash) && segmentRun s'
              end
        end
      else
        fun s => match s with
                 | String d s' => Ascii.eqb c d && wild p1 s'
                 | EmptyString => false
                 end
  end.

Fixpoint dynamic (s : string) : bool :=
  match s with
  | EmptyString => false
  | String c s' => Ascii.eqb c star || dynamic s'
  end.

Definition matchesAny (pats : list string) (x : string) : bool :=
  existsb (fun p => wild p x) pats.

Definition Entries : Type := list (string * Node).

Definition diskOf (l : Entries) : Disk :=
  fun p => match find (fun e => String.eqb (fst e) p) l with
           | Some e => Some (snd e)
           | None => None
           end.

Definition isRegular (e : string * Node) : bool :=
  match snd e with RegularFile _ _ => true | Directory => false end.

Definition expand (l : Entries) (pats : list string) : list string :=
  filter (matchesAny pats) (map fst (filter isRegular l)).

Definition globifyOne (l : Entries) (p : string) : Result (list string) :=
  if dynamic p then Ok [p]
  else match diskOf l p with
       | None => Ok [p; (p ++ "/**")%string]
       | Some (RegularFile _ _) => Ok [p]
       | Some Directory => Ok [(p ++ "/**")%string]
       end.

Fixpoint dropPrefix (pre s : string) : string :=
  match pre, s with
  | String a pre', String b s' => if Ascii.eqb a b then dropPrefix pre' s' else s
  | _, _ => s
  end.

(** The environment over the disk [l], for sources whose common directory is
    [base]. *)
Definition env (base : string) (l : Entries) : Env :=
  {| resolve := fun p => p;
     relative := fun b p => dropPrefix (b ++ "/")%string p;
     join := fun a b => (a ++ "/" ++ b)%string;
     normalize := fun p => p;
     isDynamicPattern := dynamic;
     globby := fun pats _ => expand l pats;
     globSync := fun pats _ => expand l pats;
     multimatch := fun paths pats => filter (matchesAny pats) paths;
     globify1 := globifyOne l;
     getCommonPath := fun _ => base;
     resolveFromPaths := fun from _ =>
       map (fun f => {| rfrom := f; resolvedFrom := f |})
           (match from with FromString s => [s] | FromArray fs => fs end);
     resolveGlobOptions := fun noGlob hasDynamicPattern hasGlobOptions =>
       noGlob || (negb hasGlobOptions && negb hasDynamicPattern);
     render := fun p _ => p;
     disk := diskOf l |}.

Definition memFile (p c : string) : File :=
  {| path := p; contents := Some c; state := Some STATE_MODIFIED;
     stat := None; history := [p] |}.

Definition tombstone (p : string) : File :=
  {| path := p; contents := None; state := Some STATE_DELETED;
     stat := None; history := [p] |}.

Definition storeOf (fs : list File) : Store := {| files := fs; legacy := false |}.

Definition plain : CopyAsyncOptions :=
  {| processFile := None; append := false; globOptions := None;
     processDestinationPath := None; ignoreNoMatch := false |}.

End Posix.


(** ** Cases to run *)

Module Cases.

Import Posix.

Definition fileMode : Z := 420.   (* 0o644 *)

(** One file on disk, [/a/x.txt]. *)
Definition oneOnDisk : Entries := [("/a/x.txt", RegularFile "D" fileMode)].

(** The same, and a regular file at [/out]. *)
Definition withOut : Entries :=
  [("/out", RegularFile "O" fileMode); ("/a/x.txt", RegularFile "D" fileMode)].

Definition noDeleteOptions : DeleteOptions := {| d_globOptions := None |}.

Definition appending : CopyAsyncOptions :=
  {| processFile := None; append := true; globOptions := None;
     processDestinationPath := None; ignoreNoMatch := false |}.

Definition legacyStore (fs : list File) : Store := {| files := fs; legacy := true |}.

Definition starTxt : ResolvedFrom := {| rfrom := "/a/*.txt"; resolvedFrom := "/a/*.txt" |}.

(** A record to commit: modified, with mode [0o600]. *)
Definition newFile : File :=
  {| path := "/out/file-new.txt"; contents := Some "bar";
     state := Some STATE_MODIFIED; stat := Some {| mode := 384 |};
     history := ["/out/file-new.txt"] |}.

Definition outDir (p : string) : string := "/out".

Definition emptyDisk : Disk := fun _ => None.

(** [os.EOL], and the text the template of the copyTpl test renders to. *)
Definition EOL : string := String "010"%char EmptyString.

Definition newContent : string := ("new content" ++ EOL)%string.

(** [append] with a [processFile] hook that resolves to [newContent]. *)
Definition hookedAppending : CopyAsyncOptions :=
  {| processFile := Some (fun _ => Ok newContent); append := true;
     globOptions := None; processDestinationPath := None;
     ignoreNoMatch := false |}.

End Cases.

(** * Properties *)

(** ** The store as a keyed map *)

Section StoreFacts.

Variable E : Env.

Lemma find_keyIs_path {k l f} :
  find (keyIs k) l = Some f -> path f = k.
Proof.
  intros H. apply find_some in H. destruct H as [_ H].
  unfold keyIs in H. now apply String.eqb_eq in H.
Qed.

Lemma find_keyIs_in k l :
  In k (map path l) -> exists f, find (keyIs k) l = Some f.
Proof.
  induction l as [|g l IH]; simpl; [easy|].
  intros [Hk|Hk].
  - unfold keyIs at 1. rewrite Hk, String.eqb_refl. eauto.
  - destruct (keyIs k g); eauto.
Qed.

Lemma setKey_same f l :
  find (keyIs (path f)) l = Some f -> setKey f l = l.
Proof.
  induction l as [|g l IH]; simpl; [discriminate|].
  destruct (keyIs (path f) g).
  - intros [= ->]. reflexivity.
  - intros H. now rewrite IH.
Qed.

Lemma find_setKey_same f l :
  find (keyIs (path f)) (setKey f l) = Some f.
Proof.
  induction l as [|g l IH]; simpl.
  - unfold keyIs. now rewrite String.eqb_refl.
  - destruct (keyIs (path f) g) eqn:Hg; simpl.
    + unfold keyIs. now rewrite String.eqb_refl.
    + now rewrite Hg.
Qed.

Lemma find_setKey_other f k l :
  path f <> k -> find (keyIs k) (setKey f l) = find (keyIs k) l.
Proof.
  intros Hne. induction l as [|g l IH]; simpl.
  - unfold keyIs. apply String.eqb_neq in Hne. now rewrite Hne.
  - destruct (keyIs (path f) g) eqn:Hg; simpl.
    + assert (Hgk : keyIs k g = false).
      { unfold keyIs in *. apply String.eqb_eq in Hg.
        apply String.eqb_neq. congruence. }
      rewrite Hgk. unfold keyIs at 1.
      apply String.eqb_neq in Hne. now rewrite Hne.
    + now rewrite IH.
Qed.

Lemma map_path_setKey f g l :
  find (keyIs (path f)) l = Some g -> map path (setKey f l) = map path l.
Proof.
  induction l as [|h l IH]; simpl; [discriminate|].
  destruct (keyIs (path f) h) eqn:Hh.
  - intros _. simpl. f_equal. unfold keyIs in Hh.
    apply String.eqb_eq in Hh. congruence.
  - intros H. simpl. f_equal. auto.
Qed.

Lemma in_setKey f g l :
  In g (setKey f l) -> g = f \/ In g l.
Proof.
  induction l as [|h l IH]; simpl.
  - intros [H|[]]; auto.
  - destruct (keyIs (path f) h); simpl; intros [H|H]; auto.
    apply IH in H. tauto.
Qed.

Lemma find_app_some {A} {p : A -> bool} {l} l' {x} :
  find p l = Some x -> find p (l ++ l') = Some x.
Proof.
  induction l as [|a l IH]; simpl; [discriminate|].
  destruct (p a); auto.
Qed.

Lemma find_app_none {A} {p : A -> bool} {l} l' :
  find p l = None -> find p (l ++ l') = find p l'.
Proof.
  induction l as [|a l IH]; simpl; [reflexivity|].
  destruct (p a); [discriminate|auto].
Qed.

Lemma path_loadFile p : path (loadFile E p) = p.
Proof. unfold loadFile. destruct (disk E p) as [[|]|]; reflexivity. Qed.

(** [store.get] on a loaded path leaves the store as it is. *)
Lemma get_in_memory {S p f} :
  peek E S p = Some f -> get E S p = (f, S).
Proof. unfold get. now intros ->. Qed.

Lemma entomb_isTomb f : isTomb (entomb f).
Proof. split; reflexivity. Qed.

Lemma entomb_tomb {f} : isTomb f -> entomb f = f.
Proof. destruct f; unfold isTomb, entomb; simpl. intros [-> ->]. reflexivity. Qed.

Lemma path_entomb f : path (entomb f) = path f.
Proof. reflexivity. Qed.

Lemma deleteFile_loaded {S p f} :
  peek E S p = Some f -> deleteFile E p S = add (entomb f) S.
Proof. intros H. unfold deleteFile. now rewrite (get_in_memory H). Qed.

Lemma deleteFile_fresh {S p} :
  peek E S p = None ->
  deleteFile E p S =
  add (entomb (loadFile E (resolve E p)))
      {| files := files S ++ [loadFile E (resolve E p)]; legacy := legacy S |}.
Proof. intros H. unfold deleteFile, get. now rewrite H. Qed.

Lemma legacy_deleteFile S p : legacy (deleteFile E p S) = legacy S.
Proof.
  destruct (peek E S p) eqn:H.
  - now rewrite (deleteFile_loaded H).
  - now rewrite (deleteFile_fresh H).
Qed.

(** Deleting a path that already holds a tombstone changes nothing. *)
Lemma deleteFile_tombed S p :
  tombed S (resolve E p) -> deleteFile E p S = S.
Proof.
  intros (f & Hf & Ht). rewrite (deleteFile_loaded Hf).
  rewrite (entomb_tomb Ht). unfold add.
  rewrite setKey_same.
  - now destruct S.
  - now rewrite (find_keyIs_path Hf).
Qed.

Lemma deleteFile_makes_tomb S p : tombed (deleteFile E p S) (resolve E p).
Proof.
  destruct (peek E S p) as [f|] eqn:H.
  - rewrite (deleteFile_loaded H). exists (entomb f). split; [|apply entomb_isTomb].
    simpl. rewrite <- (find_keyIs_path H), <- (path_entomb f).
    apply find_setKey_same.
  - rewrite (deleteFile_fresh H).
    exists (entomb (loadFile E (resolve E p))). split; [|apply entomb_isTomb].
    simpl. rewrite <- (path_loadFile (resolve E p)) at 1.
    rewrite <- path_entomb. apply find_setKey_same.
Qed.

Lemma deleteFile_keeps_tomb S p k :
  tombed S k -> tombed (deleteFile E p S) k.
Proof.
  intros Hk. destruct (string_dec (resolve E p) k) as [<-|Hne].
  - apply deleteFile_makes_tomb.
  - destruct Hk as (g & Hg & Ht). exists g. split; [|exact Ht].
    destruct (peek E S p) as [f|] eqn:H.
    + rewrite (deleteFile_loaded H). simpl.
      rewrite find_setKey_other; [exact Hg|].
      rewrite path_entomb, (find_keyIs_path H). exact Hne.
    + rewrite (deleteFile_fresh H). simpl.
      rewrite find_setKey_other.
      * now apply find_app_some.
      * now rewrite path_entomb, path_loadFile.
Qed.

(** A record with contents in the store after [deleteFile] was there before. *)
Lemma deleteFile_live_back S p k f c :
  find (keyIs k) (files (deleteFile E p S)) = Some f ->
  contents f = Some c ->
  find (keyIs k) (files S) = Some f.
Proof.
  intros Hf Hc.
  destruct (string_dec (resolve E p) k) as [<-|Hne].
  - destruct (deleteFile_makes_tomb S p) as (g & Hg & Hgc & _).
    rewrite Hf in Hg. injection Hg as <-. congruence.
  - destruct (peek E S p) as [g|] eqn:H.
    + rewrite (deleteFile_loaded H) in Hf. simpl in Hf.
      rewrite find_setKey_other in Hf; [exact Hf|].
      rewrite path_entomb, (find_keyIs_path H). exact Hne.
    + rewrite (deleteFile_fresh H) in Hf. simpl in Hf.
      rewrite find_setKey_other in Hf
        by (now rewrite path_entomb, path_loadFile).
      destruct (find (keyIs k) (files S)) as [h|] eqn:Hk.
      * now rewrite (find_app_some _ Hk) in Hf.
      * rewrite (find_app_none _ Hk) in Hf. simpl in Hf.
        destruct (keyIs k (loadFile E (resolve E p))) eqn:Hl; [|discriminate].
        unfold keyIs in Hl. apply String.eqb_eq in Hl.
        rewrite path_loadFile in Hl. contradiction.
Qed.

(** A record without contents stays a record without contents. *)
Lemma deleteFile_dead_stays S p k f :
  find (keyIs k) (files S) = Some f -> contents f = None ->
  exists g, find (keyIs k) (files (deleteFile E p S)) = Some g /\ contents g = None.
Proof.
  intros Hf Hc.
  destruct (string_dec (resolve E p) k) as [<-|Hne].
  - destruct (deleteFile_makes_tomb S p) as (g & Hg & Hgc & _). eauto.
  - exists f. split; [|exact Hc].
    destruct (peek E S p) as [g|] eqn:H.
    + rewrite (deleteFile_loaded H). simpl.
      rewrite find_setKey_other; [exact Hf|].
      rewrite path_entomb, (find_keyIs_path H). exact Hne.
    + rewrite (deleteFile_fresh H). simpl.
      rewrite find_setKey_other by (now rewrite path_entomb, path_loadFile).
      now apply find_app_some.
Qed.

Lemma keys_deleteFile_loaded S p :
  In (resolve E p) (map path (files S)) ->
  map path (files (deleteFile E p S)) = map path (files S).
Proof.
  intros Hin. destruct (find_keyIs_in _ _ Hin) as [f Hf].
  rewrite (deleteFile_loaded Hf). simpl.
  apply map_path_setKey with (g := f).
  now rewrite path_entomb, (find_keyIs_path Hf).
Qed.

Lemma canonical_deleteFile S p :
  (forall q, resolve E (resolve E q) = resolve E q) ->
  canonical E S -> canonical E (deleteFile E p S).
Proof.
  intros Hidem Hc g Hg.
  destruct (peek E S p) as [f|] eqn:H.
  - rewrite (deleteFile_loaded H) in Hg. simpl in Hg.
    apply in_setKey in Hg. destruct Hg as [->|Hg]; [|auto].
    rewrite path_entomb. apply Hc.
    apply find_some in H. tauto.
  - rewrite (deleteFile_fresh H) in Hg. simpl in Hg.
    apply in_setKey in Hg. destruct Hg as [->|Hg].
    + now rewrite path_entomb, path_loadFile.
    + apply in_app_or in Hg. destruct Hg as [Hg|[<-|[]]]; [auto|].
      now rewrite path_loadFile.
Qed.

End StoreFacts.

(** ** Deleting lists of paths *)

Section DeleteFacts.

Variable E : Env.

Lemma deleteIf_cons c p ps S :
  deleteIf E c (p :: ps) S =
  deleteIf E c ps (if c p then deleteFile E p S else S).
Proof. reflexivity. Qed.

Lemma deleteIf_keeps c ps : forall S k,
  tombed S k -> tombed (deleteIf E c ps S) k.
Proof.
  induction ps as [|p ps IH]; intros S k Hk; [exact Hk|].
  rewrite deleteIf_cons. apply IH.
  destruct (c p); [now apply deleteFile_keeps_tomb|exact Hk].
Qed.

Lemma deleteIf_makes c ps : forall S p,
  In p ps -> c p = true -> tombed (deleteIf E c ps S) (resolve E p).
Proof.
  induction ps as [|q ps IH]; intros S p Hin Hc; [easy|].
  rewrite deleteIf_cons. destruct Hin as [->|Hin].
  - rewrite Hc. apply deleteIf_keeps, deleteFile_makes_tomb.
  - now apply IH.
Qed.

Lemma deleteIf_id c ps S :
  (forall p, In p ps -> c p = true -> tombed S (resolve E p)) ->
  deleteIf E c ps S = S.
Proof.
  induction ps as [|q ps IH]; intros H; [reflexivity|].
  rewrite deleteIf_cons.
  assert (Hq : (if c q then deleteFile E q S else S) = S).
  { destruct (c q) eqn:Hc; [|reflexivity].
    apply deleteFile_tombed, H; [now left|exact Hc]. }
  rewrite Hq. apply IH. intros p Hp. apply H. now right.
Qed.

Lemma deleteIf_keys c ps : forall S,
  (forall p, In p ps -> In (resolve E p) (map path (files S))) ->
  map path (files (deleteIf E c ps S)) = map path (files S).
Proof.
  induction ps as [|q ps IH]; intros S H; [reflexivity|].
  rewrite deleteIf_cons.
  assert (Hq : map path (files (if c q then deleteFile E q S else S))
               = map path (files S)).
  { destruct (c q); [|reflexivity].
    apply keys_deleteFile_loaded, H. now left. }
  rewrite IH; [exact Hq|].
  intros p Hp. rewrite Hq. apply H. now right.
Qed.

Lemma legacy_deleteIf c ps : forall S, legacy (deleteIf E c ps S) = legacy S.
Proof.
  induction ps as [|q ps IH]; intros S; [reflexivity|].
  rewrite deleteIf_cons, IH. destruct (c q); [apply legacy_deleteFile|reflexivity].
Qed.

Lemma canonical_deleteIf c ps :
  (forall q, resolve E (resolve E q) = resolve E q) ->
  forall S, canonical E S -> canonical E (deleteIf E c ps S).
Proof.
  intros Hidem. induction ps as [|q ps IH]; intros S HS; [exact HS|].
  rewrite deleteIf_cons. apply IH.
  destruct (c q); [now apply canonical_deleteFile|exact HS].
Qed.

Lemma deleteIf_live_back c ps : forall S k f d,
  find (keyIs k) (files (deleteIf E c ps S)) = Some f ->
  contents f = Some d ->
  find (keyIs k) (files S) = Some f.
Proof.
  induction ps as [|q ps IH]; intros S k f d Hf Hd; [exact Hf|].
  rewrite deleteIf_cons in Hf. specialize (IH _ _ _ _ Hf Hd).
  destruct (c q); [|exact IH].
  eapply deleteFile_live_back; eauto.
Qed.

Lemma deleteIf_dead_stays c ps : forall S k f,
  find (keyIs k) (files S) = Some f -> contents f = None ->
  exists g, find (keyIs k) (files (deleteIf E c ps S)) = Some g /\ contents g = None.
Proof.
  induction ps as [|q ps IH]; intros S k f Hf Hc; [eauto|].
  rewrite deleteIf_cons. destruct (c q).
  - destruct (deleteFile_dead_stays E S q k f Hf Hc) as (g & Hg & Hgc).
    eapply IH; eauto.
  - eapply IH; eauto.
Qed.

Section Sweep.

Hypothesis resolve_idem : forall q, resolve E (resolve E q) = resolve E q.

Variable pats : list string.
Variable options : DeleteOptions.

(** Running the glob part of a delete a second time changes nothing. *)
Lemma deleteGlobbed_idem S :
  canonical E S ->
  deleteGlobbed E pats options (deleteGlobbed E pats options S)
  = deleteGlobbed E pats options S.
Proof.
  intros HS. unfold deleteGlobbed at 1.
  set (found := map (resolve E) _).
  set (S2 := deleteGlobbed E pats options S).
  assert (HS1 : canonical E (deleteAll E found S))
    by (now apply canonical_deleteIf).
  assert (Hfound : forall p, In p found -> tombed S2 (resolve E p)).
  { intros p Hp. unfold S2, deleteGlobbed, deleteMatching.
    apply deleteIf_keeps. fold found. now apply deleteIf_makes. }
  assert (Hkeys : map path (files S2) = map path (files (deleteAll E found S))).
  { unfold S2, deleteGlobbed, deleteMatching. fold found.
    apply deleteIf_keys. intros p Hp.
    apply in_map_iff in Hp. destruct Hp as (f & <- & Hf).
    rewrite (HS1 f Hf). now apply in_map. }
  assert (Hall : deleteAll E found S2 = S2).
  { apply deleteIf_id. intros p Hp _. now apply Hfound. }
  rewrite Hall. unfold deleteMatching.
  apply deleteIf_id. intros p Hp Hm.
  rewrite Hkeys in Hp.
  unfold S2, deleteGlobbed, deleteMatching. fold found.
  now apply deleteIf_makes.
Qed.

Lemma deleteGlobbed_live_back S k f d :
  find (keyIs k) (files (deleteGlobbed E pats options S)) = Some f ->
  contents f = Some d ->
  find (keyIs k) (files S) = Some f.
Proof.
  intros Hf Hd. unfold deleteGlobbed, deleteMatching, deleteAll in Hf.
  eapply deleteIf_live_back; [|exact Hd].
  eapply deleteIf_live_back; [exact Hf|exact Hd].
Qed.

Lemma deleteGlobbed_dead_stays S k f :
  find (keyIs k) (files S) = Some f -> contents f = None ->
  exists g, find (keyIs k) (files (deleteGlobbed E pats options S)) = Some g
            /\ contents g = None.
Proof.
  intros Hf Hc. unfold deleteGlobbed, deleteMatching, deleteAll.
  destruct (deleteIf_dead_stays (fun _ => true)
              (map (resolve E) (globSync E pats (deleteGlobOptions options)))
              S k f Hf Hc) as (g & Hg & Hgc).
  eapply deleteIf_dead_stays; eauto.
Qed.

Lemma legacy_deleteGlobbed S :
  legacy (deleteGlobbed E pats options S) = legacy S.
Proof. unfold deleteGlobbed, deleteMatching, deleteAll. now rewrite !legacy_deleteIf. Qed.

End Sweep.

End DeleteFacts.

(** ** [deleteAction] *)

Section DeleteAction.

Variable E : Env.

Lemma classify_ok S acc p :
  legacy S = false -> exists sets, classify E S acc p = Ok sets.
Proof.
  intros Hl. destruct acc as [on nf].
  unfold classify, existsInMemory_call. rewrite Hl. simpl.
  destruct (negb (existsInMemory E S p)); [eauto|].
  destruct (contents (fst (get E S p))); [eauto|].
  destruct (negb (isFileStateDeleted (fst (get E S p)))); eauto.
Qed.

Lemma foldM_classify_ok S ps : forall acc,
  legacy S = false -> exists sets, foldM (classify E S) ps acc = Ok sets.
Proof.
  induction ps as [|p ps IH]; intros acc Hl; simpl; [eauto|].
  destruct (classify_ok S acc p Hl) as [sets ->]. simpl. now apply IH.
Qed.

(** The sets a single path is sorted into. *)
Lemma classifyAll_single S p :
  legacy S = false ->
  classifyAll E S [p] =
  Ok match peek E S p with
     | None => ([], [p])
     | Some f =>
         match contents f with
         | Some _ => ([p], [])
         | None => if isFileStateDeleted f then ([], []) else ([], [p])
         end
     end.
Proof.
  intros Hl. unfold classifyAll, foldM, classify, existsInMemory_call, existsInMemory.
  rewrite Hl. simpl.
  destruct (peek E S p) as [f|] eqn:Hp; simpl; [|reflexivity].
  rewrite (get_in_memory E Hp). simpl.
  destruct (contents f); [reflexivity|].
  destruct (isFileStateDeleted f); reflexivity.
Qed.

Lemma globify_single p : globify E [p] = do pats <- globify1 E p ; Ok pats.
Proof.
  unfold globify. simpl. destruct (globify1 E p); simpl; [|reflexivity].
  now rewrite app_nil_r.
Qed.

Lemma deleteAction_single S p o :
  legacy S = false ->
  deleteAction E S (FromString p) o =
  let notFound := do pats <- globify1 E p ; Ok (deleteGlobbed E pats o S) in
  match peek E S p with
  | None => notFound
  | Some f =>
      match contents f with
      | Some _ => Ok (deleteFile E p (deleteGlobbed E [] o S))
      | None =>
          if isFileStateDeleted f then Ok (deleteGlobbed E [] o S) else notFound
      end
  end.
Proof.
  intros Hl. unfold deleteAction. simpl asArray.
  rewrite (classifyAll_single S p Hl). simpl.
  destruct (peek E S p) as [f|].
  - destruct (contents f); [reflexivity|].
    destruct (isFileStateDeleted f); [reflexivity|].
    rewrite globify_single. now destruct (globify1 E p).
  - rewrite globify_single. now destruct (globify1 E p).
Qed.

Lemma deleteAction_legacy S paths o e :
  deleteAction E S paths o = Ok e -> asArray paths <> [] -> legacy S = false.
Proof.
  unfold deleteAction, classifyAll. intros H Hne.
  destruct (asArray paths) as [|p ps]; [contradiction|].
  simpl in H. unfold classify at 1 in H. unfold existsInMemory_call in H.
  destruct (legacy S); [discriminate|reflexivity].
Qed.

Lemma deleteMatching_none pats S :
  (forall f, In f (files S) -> hasMatch E pats (path f) = false) ->
  deleteMatching E pats S = S.
Proof.
  intros H. unfold deleteMatching. apply deleteIf_id.
  intros p Hp Hm. apply in_map_iff in Hp. destruct Hp as (f & <- & Hf).
  rewrite (H f Hf) in Hm. discriminate.
Qed.

Section EmptyPatterns.

Hypothesis globSync_nil : forall g, globSync E [] g = [].
Hypothesis multimatch_nil : forall x, multimatch E [x] [] = [].

Lemma deleteGlobbed_nil o S : deleteGlobbed E [] o S = S.
Proof.
  unfold deleteGlobbed. rewrite globSync_nil. simpl.
  apply deleteMatching_none. intros f _. unfold hasMatch.
  now rewrite multimatch_nil.
Qed.

Hypothesis resolve_idem : forall q, resolve E (resolve E q) = resolve E q.

(** A store that the glob part of [delete p] leaves alone, and where [p] has
    no contents, is left alone by [delete p]. *)
Lemma deleteAction_settled S p o pats :
  legacy S = false ->
  globify1 E p = Ok pats ->
  deleteGlobbed E pats o S = S ->
  (forall f d, peek E S p = Some f -> contents f = Some d -> False) ->
  deleteAction E S (FromString p) o = Ok S.
Proof.
  intros Hl Hg Hfix Hdead. rewrite (deleteAction_single S p o Hl). simpl.
  rewrite Hg. simpl. rewrite Hfix, deleteGlobbed_nil.
  destruct (peek E S p) as [f|] eqn:Hp; [|reflexivity].
  destruct (contents f) as [d|] eqn:Hc.
  - exfalso. eapply Hdead; eauto.
  - now destruct (isFileStateDeleted f).
Qed.

(** C6.  Deleting the same path twice: when [delete p] has run on a store,
    running it again returns without an error and leaves the store as the
    first call left it; and a path that holds a tombstone (no contents, state
    deleted) is sorted neither into the files to delete nor into the patterns
    to expand.  The glob library is taken to match nothing when given no
    pattern, and the keys of the store to be resolved paths. *)
Theorem delete_twice_is_delete_once S p o S1 :
  canonical E S ->
  deleteAction E S (FromString p) o = Ok S1 ->
  deleteAction E S1 (FromString p) o = Ok S1
  /\ (forall f, peek E S1 p = Some f -> isTomb f ->
                classifyAll E S1 [p] = Ok ([], [])).
Proof.
  intros HS H1.
  assert (Hl : legacy S = false)
    by (apply (deleteAction_legacy _ _ _ _ H1); discriminate).
  split.
  - rewrite (deleteAction_single S p o Hl) in H1. simpl in H1.
    destruct (peek E S p) as [f|] eqn:Hp.
    + destruct (contents f) as [d|] eqn:Hc.
      * (* p held contents: it now holds a tombstone *)
        rewrite deleteGlobbed_nil in H1. injection H1 as <-.
        assert (Hl1 : legacy (deleteFile E p S) = false)
          by (now rewrite legacy_deleteFile).
        rewrite (deleteAction_single _ p o Hl1). simpl.
        destruct (deleteFile_makes_tomb E S p) as (g & Hg & Hgc & Hgs).
        unfold peek. rewrite Hg, Hgc. unfold isFileStateDeleted. rewrite Hgs.
        now rewrite deleteGlobbed_nil.
      * destruct (isFileStateDeleted f) eqn:Hd.
        -- (* p was a tombstone already *)
           rewrite deleteGlobbed_nil in H1. injection H1 as <-.
           rewrite (deleteAction_single S p o Hl). simpl.
           rewrite Hp, Hc, Hd. now rewrite deleteGlobbed_nil.
        -- (* p was loaded without contents: it went to the glob *)
           destruct (globify1 E p) as [pats|] eqn:Hg; [|discriminate].
           simpl in H1. injection H1 as <-.
           apply deleteAction_settled with (pats := pats).
           ++ now rewrite legacy_deleteGlobbed.
           ++ exact Hg.
           ++ now apply deleteGlobbed_idem.
           ++ intros g d Hg1 Hgd.
              destruct (deleteGlobbed_dead_stays E pats o S _ f Hp Hc)
                as (h & Hh & Hhc).
              unfold peek in Hg1. rewrite Hh in Hg1. congruence.
    + (* p was not loaded: it went to the glob *)
      destruct (globify1 E p) as [pats|] eqn:Hg; [|discriminate].
      simpl in H1. injection H1 as <-.
      apply deleteAction_settled with (pats := pats).
      * now rewrite legacy_deleteGlobbed.
      * exact Hg.
      * now apply deleteGlobbed_idem.
      * intros g d Hg1 Hgd.
        unfold peek in Hg1, Hp.
        rewrite (deleteGlobbed_live_back E pats o S _ _ _ Hg1 Hgd) in Hp.
        discriminate.
  - intros f Hf [Hc Hs].
    assert (Hl1 : legacy S1 = false).
    { destruct (legacy S1) eqn:Hl1; [|reflexivity].
      rewrite (deleteAction_single S p o Hl) in H1. simpl in H1.
      assert (Hleg : forall X, Ok X = Ok S1 -> legacy X = true)
        by (intros X [= ->]; exact Hl1).
      destruct (peek E S p) as [g|].
      - destruct (contents g).
        + apply Hleg in H1. rewrite legacy_deleteFile, legacy_deleteGlobbed in H1.
          congruence.
        + destruct (isFileStateDeleted g).
          * apply Hleg in H1. rewrite legacy_deleteGlobbed in H1. congruence.
          * destruct (globify1 E p); [|discriminate]. simpl in H1.
            apply Hleg in H1. rewrite legacy_deleteGlobbed in H1. congruence.
      - destruct (globify1 E p); [|discriminate]. simpl in H1.
        apply Hleg in H1. rewrite legacy_deleteGlobbed in H1. congruence. }
    rewrite (classifyAll_single S1 p Hl1), Hf, Hc.
    unfold isFileStateDeleted. now rewrite Hs.
Qed.

End EmptyPatterns.

(** C7.  On a store with the existence check, [deleteAction] throws only
    when [globify] rejects one of the paths it was given: the error is the
    one of [globify], and whenever [globify] accepts the paths the call
    returns.  When nothing is matched (no path with contents in the store,
    no file found on disk, no store entry matching the patterns) the call
    returns and the store is the one it was given. *)
Theorem delete_throws_only_on_rejected_input S paths o :
  legacy S = false ->
  (forall e, deleteAction E S paths o = Err e ->
             exists onStoreFiles notFound,
               classifyAll E S (asArray paths) = Ok (onStoreFiles, notFound)
               /\ globify E notFound = Err e)
  /\ (forall onStoreFiles notFound pats,
        classifyAll E S (asArray paths) = Ok (onStoreFiles, notFound) ->
        globify E notFound = Ok pats ->
        exists S', deleteAction E S paths o = Ok S')
  /\ (forall notFound pats,
        classifyAll E S (asArray paths) = Ok ([], notFound) ->
        globify E notFound = Ok pats ->
        globSync E pats (deleteGlobOptions o) = [] ->
        (forall f, In f (files S) -> hasMatch E pats (path f) = false) ->
        deleteAction E S paths o = Ok S).
Proof.
  intros Hl. unfold deleteAction.
  destruct (foldM_classify_ok S (asArray paths) ([], []) Hl) as [[on nf] Hc].
  unfold classifyAll. rewrite Hc. simpl. repeat split.
  - intros e H. exists on, nf. split; [reflexivity|].
    destruct (globify E nf); simpl in H; [discriminate|congruence].
  - intros on' nf' pats [= <- <-] ->. simpl. eauto.
  - intros nf' pats [= -> <-] -> Hglob Hnone. simpl.
    unfold deleteGlobbed. rewrite Hglob. simpl.
    now rewrite deleteMatching_none.
Qed.

(** C8 (as the code has it).  A single pattern that the store does not hold
    and that matches no file on disk and no store entry: [deleteAction]
    returns, whatever the options, and the store is the one it was given. *)
Theorem delete_unmatched_pattern_is_noop S p o pats :
  legacy S = false ->
  existsInMemory E S p = false ->
  globify1 E p = Ok pats ->
  globSync E pats (deleteGlobOptions o) = [] ->
  (forall f, In f (files S) -> hasMatch E pats (path f) = false) ->
  deleteAction E S (FromString p) o = Ok S.
Proof.
  intros Hl Hmem Hg Hglob Hnone.
  rewrite (deleteAction_single S p o Hl). simpl.
  unfold existsInMemory in Hmem.
  destruct (peek E S p); [discriminate|].
  rewrite Hg. simpl. unfold deleteGlobbed. rewrite Hglob. simpl.
  now rewrite deleteMatching_none.
Qed.

End DeleteAction.

(** ** [copyAsync]: resolving the sources *)

Section CopyFacts.

Variable E : Env.

Lemma includes_In l x : includes l x = true <-> In x l.
Proof.
  unfold includes. rewrite existsb_exists. split.
  - intros (y & Hy & Heq). apply String.eqb_eq in Heq. now subst.
  - intros H. exists x. split; [exact H|apply String.eqb_refl].
Qed.

Lemma nonEmpty_true {A} (l : list A) : nonEmpty l = true <-> l <> [].
Proof. destruct l; simpl; split; intros; congruence. Qed.

Lemma nonEmpty_false {A} (l : list A) : nonEmpty l = false <-> l = [].
Proof. destruct l; simpl; split; intros; congruence. Qed.

(** What the callback of [store.each] pushes. *)
Lemma scanStore_spec diskFiles patterns S p :
  In p (scanStore E diskFiles patterns S) <->
  exists file,
    In file (files S) /\ path file = p
    /\ includes diskFiles (normalize E (path file)) = false
    /\ isDynamicPattern E (normalize E (path file)) = false
    /\ multimatch E [normalize E (path file)] patterns <> [].
Proof.
  unfold scanStore. rewrite in_map_iff. split.
  - intros (file & Hp & Hin). apply filter_In in Hin. destruct Hin as [Hin Hm].
    exists file. unfold virtualMatch in Hm.
    apply andb_true_iff in Hm. destruct Hm as [Hm H3].
    apply andb_true_iff in Hm. destruct Hm as [H1 H2].
    apply negb_true_iff in H1, H2. apply nonEmpty_true in H3. tauto.
  - intros (file & Hin & Hp & H1 & H2 & H3). exists file. split; [exact Hp|].
    apply filter_In. split; [exact Hin|].
    unfold virtualMatch. rewrite H1, H2. simpl. now apply nonEmpty_true.
Qed.

Lemma NoDup_map_filter {A B} (g : A -> B) (c : A -> bool) l :
  NoDup (map g l) -> NoDup (map g (filter c l)).
Proof.
  induction l as [|a l IH]; simpl; intros H; [constructor|].
  inversion H as [|? ? Hnotin Hnd]; subst.
  destruct (c a); simpl; [|auto].
  constructor; [|auto].
  intros Hin. apply Hnotin.
  apply in_map_iff in Hin. destruct Hin as (b & Hb & Hbin).
  apply filter_In in Hbin. rewrite <- Hb. apply in_map. tauto.
Qed.

Lemma NoDup_append {A} (l l' : list A) :
  NoDup l -> NoDup l' -> (forall a, In a l -> ~ In a l') -> NoDup (l ++ l').
Proof.
  induction l as [|a l IH]; simpl; intros Hl Hl' Hdis; [exact Hl'|].
  inversion Hl as [|? ? Hnotin Hnd]; subst. constructor.
  - intros Hin. apply in_app_or in Hin. destruct Hin as [Hin|Hin]; [auto|].
    apply (Hdis a); auto.
  - apply IH; auto.
Qed.

(** The disk matches and the store entries the scan adds share no path. *)
Lemma NoDup_disk_scan diskFiles patterns S :
  NoDup diskFiles ->
  (forall d, In d diskFiles -> normalize E d = d) ->
  NoDup (map path (files S)) ->
  NoDup (diskFiles ++ scanStore E diskFiles patterns S).
Proof.
  intros Hd Hnorm Hs. apply NoDup_append.
  - exact Hd.
  - unfold scanStore. now apply NoDup_map_filter.
  - intros a Ha Hin. apply scanStore_spec in Hin.
    destruct Hin as (file & _ & Hp & Hinc & _). rewrite Hp in Hinc.
    rewrite (Hnorm a Ha) in Hinc.
    apply includes_In in Ha. congruence.
Qed.

(** C1 (as the code has it).  A copy with sources left to glob: the glob
    patterns are expanded on disk, and a store entry is added by the scan of
    the store if and only if its normalised path is not among the disk
    matches, is not a dynamic pattern and matches the patterns.  The files
    copied are the disk matches, then the sources the store holds, then the
    entries the scan added.  With duplicate-free, normalised disk matches and
    one store entry per path, no path occurs twice among the disk matches and
    the entries the scan added; that is the whole list when no source is
    itself held by the store. *)
Theorem glob_copy_adds_unlisted_store_matches S from options r :
  resolveSources E S from options = Ok r ->
  globResolved r <> [] ->
  exists patterns,
    flatMapM (fun file => globify1 E (rfrom file)) (globResolved r) = Ok patterns
    /\ diskFiles r = globby E patterns (globOptions options)
    /\ storeFiles r =
       literalStoreFiles E S (resolveFromPaths E from (getCommonPath E from))
       ++ scanStore E (diskFiles r) patterns S
    /\ (forall p,
          In p (scanStore E (diskFiles r) patterns S) <->
          exists file,
            In file (files S) /\ path file = p
            /\ includes (diskFiles r) (normalize E (path file)) = false
            /\ isDynamicPattern E (normalize E (path file)) = false
            /\ multimatch E [normalize E (path file)] patterns <> [])
    /\ (NoDup (diskFiles r) ->
        (forall d, In d (diskFiles r) -> normalize E d = d) ->
        NoDup (map path (files S)) ->
        NoDup (diskFiles r ++ scanStore E (diskFiles r) patterns S)
        /\ (literalStoreFiles E S (resolveFromPaths E from (getCommonPath E from)) = [] ->
            NoDup (diskFiles r ++ storeFiles r))).
Proof.
  unfold resolveSources. intros H Hne.
  destruct (nonEmpty (globResolvedOf E S _)) eqn:Hg.
  - destruct (flatMapM _ _) as [patterns|] eqn:Hpat; [|discriminate].
    simpl in H. injection H as <-. simpl in *.
    exists patterns. repeat split.
    + exact Hpat.
    + apply scanStore_spec.
    + apply scanStore_spec.
    + now apply NoDup_disk_scan.
    + intros ->. simpl. now apply NoDup_disk_scan.
  - injection H as <-. simpl in Hne. apply nonEmpty_false in Hg. contradiction.
Qed.

Lemma destinationOf_error S from to options r e :
  destinationOf E S from to options r = Err e ->
  e = DestinationShapeError \/ e = IOError to.
Proof.
  unfold destinationOf, statSync_isDirectory.
  destruct (treatToAsDir E from options r); [|discriminate].
  destruct (negb (exists_ E S to)); simpl; [discriminate|].
  destruct (disk E to) as [[|]|]; simpl; intros [= <-]; auto.
Qed.

(** The files copied are the disk matches followed by the store files. *)
Lemma copyAsync_copies S from to options context r calls :
  fastPath E S from = None ->
  resolveSources E S from options = Ok r ->
  copyAsync E S from to options context = Ok calls ->
  map copiedFrom calls = diskFiles r ++ storeFiles r.
Proof.
  intros Hfast Hres. unfold copyAsync. rewrite Hfast, Hres. simpl.
  destruct (negb _); [discriminate|].
  destruct (destinationOf _ _ _ _ _ _) as [g|]; simpl; [|discriminate].
  intros [= <-]. rewrite map_app, !map_map. simpl. now rewrite !map_id.
Qed.

(** The copy of one existing file: a string source, copied onto [to]. *)
Lemma copyAsync_one_file S from to options context call :
  fastPath E S from = Some call ->
  (exists s, from = FromString s)
  /\ copyAsync E S from to options context
     = Ok [call (renderFilepath E (resolve E to) context)].
Proof.
  intros Hfast. split.
  - destruct from; [eauto|discriminate].
  - unfold copyAsync. now rewrite Hfast.
Qed.

(** C2.  A copy that is not the copy of one existing file, and whose sources
    resolve to disk matches and store files: with both lists empty and
    [ignoreNoMatch] unset the call throws the no-source-matched assertion,
    and no single-file copy is started; with a disk match, a store file or
    [ignoreNoMatch] set, that assertion does not fail. *)
Theorem no_source_matched_assertion S from to options context r :
  fastPath E S from = None ->
  resolveSources E S from options = Ok r ->
  (ignoreNoMatch options = false -> diskFiles r = [] -> storeFiles r = [] ->
   copyAsync E S from to options context = Err (NoMatchError from))
  /\ (ignoreNoMatch options = true \/ diskFiles r <> [] \/ storeFiles r <> [] ->
      forall src, copyAsync E S from to options context <> Err (NoMatchError src)).
Proof.
  intros Hfast Hres. unfold copyAsync. rewrite Hfast, Hres. simpl. split.
  - intros -> -> ->. reflexivity.
  - intros Hsome src.
    assert (Hc : (ignoreNoMatch options || nonEmpty (diskFiles r)
                  || nonEmpty (storeFiles r)) = true).
    { destruct Hsome as [->|[H|H]]; [reflexivity| |];
        apply nonEmpty_true in H; rewrite H;
        now rewrite ?orb_true_r. }
    rewrite Hc. simpl.
    destruct (destinationOf E S from (resolve E to) options r) as [g|e] eqn:Hd;
      simpl; [discriminate|].
    apply destinationOf_error in Hd. destruct Hd as [->| ->]; discriminate.
Qed.

(** C3 (as the code has it).  A copy that is not the copy of one existing
    file.  When the source is an array, or the glob options do not prefer
    files (as for a dynamic pattern), or a source is not held by the store,
    [to] is treated as a directory, and when [to] exists and is a regular
    file on disk the call throws an assertion error.  When [to] is treated
    as a file path, the source is one string that the store holds, and every
    copy goes to [to]. *)
Theorem destination_is_directory S from to options context r :
  fastPath E S from = None ->
  resolveSources E S from options = Ok r ->
  (isArray from = true \/ preferFiles E from options = false \/ globResolved r <> [] ->
   treatToAsDir E from options r = true
   /\ (exists_ E S (resolve E to) = true ->
       statSync_isDirectory E (resolve E to) = Ok false ->
       exists e, copyAsync E S from to options context = Err e
                 /\ isAssertionError e = true))
  /\ ((forall g, resolveGlobOptions E false true g = false) ->
      hasDynamicPattern E from = true -> preferFiles E from options = false)
  /\ (treatToAsDir E from options r = false ->
      (exists s, from = FromString s) /\ globResolved r = []
      /\ destinationOf E S from (resolve E to) options r = Ok (fun _ => resolve E to)).
Proof.
  intros Hfast Hres. split; [|split].
  - intros Hcase.
    assert (Hdir : treatToAsDir E from options r = true).
    { unfold treatToAsDir. destruct Hcase as [->|[->|H]]; [reflexivity| |].
      - now rewrite orb_true_r.
      - apply nonEmpty_true in H. rewrite H. now rewrite !orb_true_r. }
    split; [exact Hdir|]. intros Hex Hstat.
    unfold copyAsync. rewrite Hfast, Hres. simpl.
    destruct (negb _).
    + exists (NoMatchError from). split; reflexivity.
    + unfold destinationOf. rewrite Hdir, Hex, Hstat. simpl.
      exists DestinationShapeError. split; reflexivity.
  - intros Hglob Hdyn. unfold preferFiles. rewrite Hdyn. apply Hglob.
  - intros Hfile. split; [|split].
    + unfold treatToAsDir in Hfile.
      destruct from; simpl in Hfile; [eauto|discriminate].
    + unfold treatToAsDir in Hfile. apply orb_false_iff in Hfile.
      destruct Hfile as [_ H]. now apply nonEmpty_false.
    + unfold destinationOf. now rewrite Hfile.
Qed.

End CopyFacts.

(** ** [_copySingleAsync]: append *)

Section AppendFacts.

Variable E : Env.

Lemma peek_get_other S from to d :
  peek E S to = Some d -> peek E (snd (get E S from)) to = Some d.
Proof.
  intros H. unfold get. destruct (peek E S from); simpl; [exact H|].
  unfold peek in *. simpl. now apply find_app_some.
Qed.

Lemma legacy_get S from : legacy (snd (get E S from)) = legacy S.
Proof. unfold get. now destruct (peek E S from). Qed.

(** [write] on a loaded record leaves the new contents under its key. *)
Lemma write_loaded S to d c :
  peek E S to = Some d ->
  exists d', peek E (write E S to c) to = Some d' /\ contents d' = Some c.
Proof.
  intros H. unfold write. rewrite (get_in_memory E H).
  assert (Hadd : exists d',
            peek E (add (setContents (Some c) (setModifiedFileState d)) S) to = Some d'
            /\ contents d' = Some c).
  { exists (setContents (Some c) (setModifiedFileState d)).
    split; [|reflexivity]. unfold peek, add. simpl.
    rewrite <- (find_keyIs_path H).
    change (path d) with (path (setContents (Some c) (setModifiedFileState d))).
    apply find_setKey_same. }
  destruct (contents d) as [old|] eqn:Hd; [|exact Hadd].
  destruct (String.eqb old c) eqn:Heq; [|exact Hadd].
  apply String.eqb_eq in Heq. subst old. eauto.
Qed.

(** Appending to a loaded record with contents. *)
Lemma append_loaded S to d A B :
  peek E S to = Some d -> contents d = Some A ->
  exists S', append_ E S to B true = Ok S'
             /\ exists d', peek E S' to = Some d' /\ contents d' = Some (A ++ B)%string.
Proof.
  intros H Hc. unfold append_. rewrite (get_in_memory E H). simpl. rewrite Hc.
  eexists. split; [reflexivity|]. now apply write_loaded with (d := d).
Qed.

(** C4.  A single-file copy with [append] onto a destination that the store
    holds with contents [A].  The new contents [B] are what the [processFile]
    hook resolves to on the resolved source or, without a hook, the contents
    of the source.  The copy returns, and the destination then holds [A]
    followed by [B]. *)
Theorem append_concatenates S from to options d A B :
  append options = true ->
  legacy S = false ->
  peek E S to = Some d ->
  contents d = Some A ->
  match processFile options with
  | Some pf => pf (resolve E from) = Ok B
  | None => contents (fst (get E S from)) = Some B
  end ->
  exists S', _copySingleAsync E S from to options = Ok S'
             /\ exists d', peek E S' to = Some d' /\ contents d' = Some (A ++ B)%string.
Proof.
  intros Happ Hl Hd HA HB. unfold _copySingleAsync.
  destruct (processFile options) as [pf|].
  - unfold applyProcessingFileFunc. rewrite HB. simpl. rewrite Happ.
    unfold existsInMemory_opt, existsInMemory. rewrite Hl, Hd.
    now apply append_loaded with (d := d).
  - unfold _copySingle.
    pose proof (peek_get_other S from to d Hd) as Hd1.
    pose proof (legacy_get S from) as Hl1.
    destruct (get E S from) as [file S1]. simpl in *.
    rewrite HB, Happ.
    unfold existsInMemory_opt, existsInMemory. rewrite Hl1, Hl, Hd1.
    now apply append_loaded with (d := d).
Qed.

(** C5.  A single-file copy with [append] on a store without the existence
    check throws the incompatible-store error; no store is returned, so
    nothing is overwritten. *)
Theorem append_needs_existence_check S from to options B :
  append options = true ->
  legacy S = true ->
  copiedContents E S from options = Ok B ->
  _copySingleAsync E S from to options = Err IncompatibleStoreError.
Proof.
  intros Happ Hl HB. unfold _copySingleAsync, copiedContents in *.
  destruct (processFile options) as [pf|].
  - rewrite HB. simpl. rewrite Happ. unfold existsInMemory_opt. now rewrite Hl.
  - unfold _copySingle.
    pose proof (legacy_get S from) as Hl1.
    destruct (get E S from) as [file S1]. simpl in *.
    destruct (contents file) as [c|]; [|discriminate].
    rewrite Happ. unfold existsInMemory_opt. now rewrite Hl1, Hl.
Qed.

End AppendFacts.

(** ** [read] *)

Section ReadFacts.

Variable E : Env.

(** C10.  A path that is neither loaded in the store nor on disk, or whose
    record in the store is a tombstone: [read] throws when the options have
    no [defaults], and returns the default, whatever it is (the empty string
    and [null] included), when they have one. *)
Theorem read_missing_or_deleted S p o :
  (peek E S p = None /\ disk E (resolve E p) = None)
  \/ (exists f, peek E S p = Some f /\ isTomb f) ->
  fst (read E S p o) =
  match defaults o with
  | Some d => Ok d
  | None => Err (ReadError p)
  end.
Proof.
  intros H. unfold read, get.
  destruct H as [[Hp Hd]|(f & Hp & Hc & _)]; rewrite Hp.
  - unfold loadFile. rewrite Hd. simpl. now destruct (defaults o).
  - rewrite Hc. now destruct (defaults o).
Qed.

End ReadFacts.

(** ** [commitFileAsync] *)

Section CommitFacts.

Variable dirname : string -> string.
Variable umask : Z.

Lemma permBits_chmod m : permBits (Z.land m 4095) = permBits m.
Proof. unfold permBits. now rewrite <- Z.land_assoc. Qed.

Lemma updDisk_same d p n : updDisk d p n p = n.
Proof. unfold updDisk. now rewrite String.eqb_refl. Qed.

Lemma updDisk_other d p n q : q <> p -> updDisk d p n q = d q.
Proof. unfold updDisk. intros H. apply String.eqb_neq in H. now rewrite H. Qed.

Lemma ensureDir_ok d dir made :
  ensureDir d dir = Ok made ->
  fst made dir = Some Directory /\ forall q, q <> dir -> fst made q = d q.
Proof.
  unfold ensureDir. destruct (d dir) as [[|]|] eqn:Hdir; intros [= <-]; simpl.
  - now split.
  - split; [apply updDisk_same|]. intros q Hq. now apply updDisk_other.
Qed.

Lemma writeFile_ok d p data m written :
  writeFile umask d p data m = Ok written ->
  snd written = [SysWriteFile p data]
  /\ (exists perm, fst written p = Some (RegularFile data perm))
  /\ forall q, q <> p -> fst written q = d q.
Proof.
  unfold writeFile. destruct (d p) as [[old perm|]|]; intros [= <-]; simpl;
    (split; [reflexivity|]);
    (split; [rewrite updDisk_same; eauto|]);
    intros q Hq; now apply updDisk_other.
Qed.

(** After [applyMode] the permission bits on disk are the ones asked for. *)
Lemma applyMode_ok d p data perm m :
  d p = Some (RegularFile data perm) ->
  (exists perm', fst (applyMode d p m) p = Some (RegularFile data perm')
                 /\ forall mm, m = Some mm -> permBits perm' = permBits mm)
  /\ forall q, q <> p -> fst (applyMode d p m) q = d q.
Proof.
  intros Hp. unfold applyMode. destruct m as [mm|].
  - rewrite Hp.
    destruct (Z.eqb (permBits perm) (permBits mm)) eqn:Heq; simpl.
    + split; [|reflexivity]. exists perm. split; [exact Hp|].
      intros ? [= <-]. now apply Z.eqb_eq.
    + unfold chmod. rewrite Hp. split.
      * exists (Z.land mm 4095). split; [apply updDisk_same|].
        intros ? [= <-]. apply permBits_chmod.
      * intros q Hq. now apply updDisk_other.
  - simpl. split; [|reflexivity]. exists perm. split; [exact Hp|discriminate].
Qed.

Lemma commit_modified_settles d S f data r :
  state f = Some STATE_MODIFIED ->
  contents f = Some data ->
  dirname (path f) <> path f ->
  commitFileAsync dirname umask d S f = Ok r ->
  settled dirname (c_disk r) f data /\ existsb isWrite (c_trace r) = true.
Proof.
  intros Hs Hc Hne. unfold commitFileAsync. rewrite Hs, Hc.
  set (m := match stat f with Some st => Some (mode st) | None => None end).
  destruct (ensureDir _ _) as [made|] eqn:Hmade; simpl; [|discriminate].
  destruct (writeFile _ _ _ _ _) as [written|] eqn:Hwritten; simpl; [|discriminate].
  intros [= <-]. simpl.
  destruct (ensureDir_ok _ _ _ Hmade) as [Hdir _].
  destruct (writeFile_ok _ _ _ _ _ Hwritten) as (Ht & (perm & Hp) & Hframe).
  destruct (applyMode_ok (fst written) (path f) data perm m Hp) as ((perm' & Hp' & Hbits) & Hframe').
  split.
  - split.
    + now rewrite Hframe', Hframe.
    + exists perm'. split; [exact Hp'|].
      intros st Hst. apply Hbits. subst m. now rewrite Hst.
  - rewrite Ht, existsb_app, existsb_app. simpl. now rewrite orb_true_r.
Qed.

Lemma commit_unmodified d S f :
  state f = None ->
  commitFileAsync dirname umask d S f =
  Ok {| c_disk := d; c_store := S; c_file := f; c_trace := [] |}.
Proof. intros H. unfold commitFileAsync. now rewrite H. Qed.

Lemma commit_state_reset d S f r :
  commitFileAsync dirname umask d S f = Ok r -> state (c_file r) = None.
Proof.
  unfold commitFileAsync. destruct (state f) as [[|]|] eqn:Hs.
  - destruct (contents f); [|discriminate].
    destruct (ensureDir _ _) as [made|]; simpl; [|discriminate].
    destruct (writeFile _ _ _ _ _) as [written|]; simpl; [|discriminate].
    now intros [= <-].
  - destruct (d (path f)); now intros [= <-].
  - now intros [= <-].
Qed.

(** On a disk that a commit of the record has settled, a commit of the record
    writes the contents and does nothing else. *)
Lemma commit_on_settled d S f data :
  state f = Some STATE_MODIFIED ->
  contents f = Some data ->
  settled dirname d f data ->
  exists r, commitFileAsync dirname umask d S f = Ok r
            /\ c_trace r = [SysWriteFile (path f) data].
Proof.
  intros Hs Hc (Hdir & perm & Hp & Hperm).
  unfold commitFileAsync. rewrite Hs, Hc.
  unfold ensureDir. rewrite Hdir. simpl.
  unfold writeFile. rewrite Hp. simpl.
  unfold applyMode. rewrite updDisk_same.
  destruct (stat f) as [st|]; simpl.
  - rewrite (Hperm st eq_refl), Z.eqb_refl. simpl. eauto.
  - eauto.
Qed.

(** C9.  Committing a record whose state is unmodified makes no file-system
    call and returns the disk, the store and the record as they were.
    Committing a modified record writes its contents to disk; committing
    the record the first commit left (now unmodified) makes no call at all,
    and committing the modified record once more, with the mode it had,
    writes again and makes no mode-change call. *)
Theorem commit_unmodified_and_repeated d S f data r1 :
  state f = Some STATE_MODIFIED ->
  contents f = Some data ->
  dirname (path f) <> path f ->
  commitFileAsync dirname umask d S f = Ok r1 ->
  (forall d' S' g, state g = None ->
     commitFileAsync dirname umask d' S' g =
     Ok {| c_disk := d'; c_store := S'; c_file := g; c_trace := [] |})
  /\ existsb isWrite (c_trace r1) = true
  /\ commitFileAsync dirname umask (c_disk r1) (c_store r1) (c_file r1) =
     Ok {| c_disk := c_disk r1; c_store := c_store r1; c_file := c_file r1;
           c_trace := [] |}
  /\ exists r2,
       commitFileAsync dirname umask (c_disk r1) (c_store r1) f = Ok r2
       /\ existsb isWrite (c_trace r2) = true
       /\ existsb isChmod (c_trace r2) = false.
Proof.
  intros Hs Hc Hne H1.
  destruct (commit_modified_settles d S f data r1 Hs Hc Hne H1) as [Hset Hw].
  split; [|split; [|split]].
  - intros d' S' g Hg. now apply commit_unmodified.
  - exact Hw.
  - apply commit_unmodified. exact (commit_state_reset d S f r1 H1).
  - destruct (commit_on_settled (c_disk r1) (c_store r1) f data Hs Hc Hset)
      as (r2 & H2 & Ht).
    exists r2. rewrite Ht. now split.
Qed.

End CommitFacts.

(** * Worked cases *)

Section Worked.

Import Posix Cases.

(** C1 as stated fails: [/a/x.txt] is held by the store and is on disk, and
    the request names it and a pattern that matches it.  The disk matches
    and the store files both list it, and it is copied twice. *)
Lemma glob_copy_lists_store_source_twice :
  resolveSources (env "/a" oneOnDisk) (storeOf [memFile "/a/x.txt" "X"])
    (FromArray ["/a/x.txt"; "/a/*.txt"]) plain
  = Ok {| diskFiles := ["/a/x.txt"]; storeFiles := ["/a/x.txt"];
          globResolved := [starTxt] |}
  /\ ~ NoDup (["/a/x.txt"] ++ ["/a/x.txt"])
  /\ copyAsync (env "/a" oneOnDisk) (storeOf [memFile "/a/x.txt" "X"])
       (FromArray ["/a/x.txt"; "/a/*.txt"]) "/out" plain None
     = Ok [CopySingleAsync "/a/x.txt" "/out/x.txt"; CopySingle "/a/x.txt" "/out/x.txt"].
Proof.
  split; [reflexivity|]. split; [|reflexivity].
  intros H. inversion H as [|? ? Hnotin _]; subst. apply Hnotin. now left.
Qed.

Lemma glob_copy_adds_unlisted_store_matches_witness :
  resolveSources (env "/a" oneOnDisk)
    (storeOf [memFile "/a/x.txt" "X"; memFile "/a/y.txt" "Y"])
    (FromString "/a/*.txt") plain
  = Ok {| diskFiles := ["/a/x.txt"]; storeFiles := ["/a/y.txt"];
          globResolved := [starTxt] |}
  /\ exists patterns,
       scanStore (env "/a" oneOnDisk) ["/a/x.txt"] patterns
         (storeOf [memFile "/a/x.txt" "X"; memFile "/a/y.txt" "Y"]) = ["/a/y.txt"]
       /\ (forall p,
            In p (scanStore (env "/a" oneOnDisk) ["/a/x.txt"] patterns
                    (storeOf [memFile "/a/x.txt" "X"; memFile "/a/y.txt" "Y"])) <->
            exists file,
              In file [memFile "/a/x.txt" "X"; memFile "/a/y.txt" "Y"] /\ path file = p
              /\ includes ["/a/x.txt"] (path file) = false
              /\ dynamic (path file) = false
              /\ filter (matchesAny patterns) [path file] <> []).
Proof.
  split; [reflexivity|].
  destruct (glob_copy_adds_unlisted_store_matches (env "/a" oneOnDisk)
              (storeOf [memFile "/a/x.txt" "X"; memFile "/a/y.txt" "Y"])
              (FromString "/a/*.txt") plain
              {| diskFiles := ["/a/x.txt"]; storeFiles := ["/a/y.txt"];
                 globResolved := [starTxt] |}
              eq_refl ltac:(discriminate))
    as (patterns & Hpat & _ & _ & Hscan & _).
  exists patterns. split; [|exact Hscan].
  simpl in Hpat. injection Hpat as <-. reflexivity.
Defined.

Lemma no_source_matched_assertion_witness :
  copyAsync (env "/a" []) (storeOf []) (FromString "/a/*.txt") "/out" plain None
  = Err (NoMatchError (FromString "/a/*.txt")).
Proof.
  apply (no_source_matched_assertion (env "/a" []) (storeOf [])
           (FromString "/a/*.txt") "/out" plain None
           {| diskFiles := []; storeFiles := []; globResolved := [starTxt] |});
    reflexivity.
Defined.

(** C3 as stated fails: the source is a string with a glob character that
    names a file the store holds, and [/out] is a regular file.  The string
    is copied as one existing file, onto [/out] itself, and nothing is
    thrown. *)
Lemma dynamic_source_copied_onto_file :
  hasDynamicPattern (env "/a" withOut) (FromString "/a/*.txt") = true
  /\ exists_ (env "/a" withOut) (storeOf [memFile "/a/*.txt" "X"]) "/out" = true
  /\ statSync_isDirectory (env "/a" withOut) "/out" = Ok false
  /\ copyAsync (env "/a" withOut) (storeOf [memFile "/a/*.txt" "X"])
       (FromString "/a/*.txt") "/out" plain None
     = Ok [CopySingle "/a/*.txt" "/out"].
Proof. repeat split. Qed.

Lemma destination_is_directory_witness :
  exists e,
    copyAsync (env "/a" withOut) (storeOf []) (FromArray ["/a/x.txt"]) "/out" plain None
    = Err e
    /\ isAssertionError e = true.
Proof.
  destruct (destination_is_directory (env "/a" withOut) (storeOf [])
              (FromArray ["/a/x.txt"]) "/out" plain None
              {| diskFiles := ["/a/x.txt"]; storeFiles := [];
                 globResolved := [{| rfrom := "/a/x.txt"; resolvedFrom := "/a/x.txt" |}] |}
              eq_refl eq_refl) as [Hdir _].
  destruct (Hdir (or_introl eq_refl)) as [_ Hthrow].
  apply Hthrow; reflexivity.
Defined.

Lemma append_concatenates_witness :
  (* with a hook, as in the copyTpl test: the text is appended to itself *)
  (exists S',
     _copySingleAsync (env "/a" [])
       (storeOf [memFile "/new/path/file-append.txt" newContent])
       "/a/file-tpl.txt" "/new/path/file-append.txt" hookedAppending = Ok S'
     /\ exists d', peek (env "/a" []) S' "/new/path/file-append.txt" = Some d'
                   /\ contents d' = Some (newContent ++ newContent)%string)
  (* without a hook: the contents of the source *)
  /\ (exists S',
        _copySingleAsync (env "/a" [])
          (storeOf [memFile "/new/path/file-append.txt" newContent;
                    memFile "/a/s.txt" newContent])
          "/a/s.txt" "/new/path/file-append.txt" appending = Ok S'
        /\ exists d', peek (env "/a" []) S' "/new/path/file-append.txt" = Some d'
                      /\ contents d' = Some (newContent ++ newContent)%string).
Proof.
  split.
  - apply (append_concatenates (env "/a" [])
             (storeOf [memFile "/new/path/file-append.txt" newContent])
             "/a/file-tpl.txt" "/new/path/file-append.txt" hookedAppending
             (memFile "/new/path/file-append.txt" newContent)
             newContent newContent);
      reflexivity.
  - apply (append_concatenates (env "/a" [])
             (storeOf [memFile "/new/path/file-append.txt" newContent;
                       memFile "/a/s.txt" newContent])
             "/a/s.txt" "/new/path/file-append.txt" appending
             (memFile "/new/path/file-append.txt" newContent)
             newContent newContent);
      reflexivity.
Defined.

Lemma append_needs_existence_check_witness :
  _copySingleAsync (env "/a" [])
    (legacyStore [memFile "/out/d.txt" "A"; memFile "/a/s.txt" "B"])
    "/a/s.txt" "/out/d.txt" appending = Err IncompatibleStoreError.
Proof.
  apply (append_needs_existence_check (env "/a" [])
           (legacyStore [memFile "/out/d.txt" "A"; memFile "/a/s.txt" "B"])
           "/a/s.txt" "/out/d.txt" appending "B");
    reflexivity.
Defined.

Lemma delete_twice_is_delete_once_witness :
  deleteAction (env "/a" oneOnDisk)
    (storeOf [entomb (loadFile (env "/a" oneOnDisk) "/a/x.txt")])
    (FromString "/a/x.txt") noDeleteOptions
  = Ok (storeOf [entomb (loadFile (env "/a" oneOnDisk) "/a/x.txt")]).
Proof.
  apply (delete_twice_is_delete_once (env "/a" oneOnDisk)
           (fun g => eq_refl) (fun x => eq_refl) (fun q => eq_refl)
           (storeOf []) "/a/x.txt" noDeleteOptions).
  - intros f [].
  - reflexivity.
Defined.

Lemma delete_throws_only_on_rejected_input_witness :
  deleteAction (env "/a" oneOnDisk) (storeOf [memFile "/a/y.txt" "Y"])
    (FromArray ["/b/*.txt"; "/c"]) noDeleteOptions
  = Ok (storeOf [memFile "/a/y.txt" "Y"]).
Proof.
  destruct (delete_throws_only_on_rejected_input (env "/a" oneOnDisk)
              (storeOf [memFile "/a/y.txt" "Y"])
              (FromArray ["/b/*.txt"; "/c"]) noDeleteOptions eq_refl)
    as (_ & _ & Hnoop).
  apply (Hnoop ["/b/*.txt"; "/c"] ["/b/*.txt"; "/c"; "/c/**"]); try reflexivity.
  intros f [<-|[]]. reflexivity.
Defined.

(** C8 as stated fails: a pattern that matches no file on disk and no store
    entry, given to [delete] without any option: nothing is thrown. *)
Lemma delete_unmatched_pattern_returns :
  dynamic "/b/*.txt" = true
  /\ globSync (env "/a" oneOnDisk) ["/b/*.txt"] [] = []
  /\ multimatch (env "/a" oneOnDisk) ["/a/y.txt"] ["/b/*.txt"] = []
  /\ deleteAction (env "/a" oneOnDisk) (storeOf [memFile "/a/y.txt" "Y"])
       (FromString "/b/*.txt") noDeleteOptions
     = Ok (storeOf [memFile "/a/y.txt" "Y"]).
Proof. repeat split. Qed.

Lemma delete_unmatched_pattern_is_noop_witness :
  deleteAction (env "/a" oneOnDisk) (storeOf [memFile "/a/y.txt" "Y"])
    (FromString "/b/*.txt") {| d_globOptions := Some ["dot"] |}
  = Ok (storeOf [memFile "/a/y.txt" "Y"]).
Proof.
  apply (delete_unmatched_pattern_is_noop (env "/a" oneOnDisk)
           (storeOf [memFile "/a/y.txt" "Y"]) "/b/*.txt"
           {| d_globOptions := Some ["dot"] |} ["/b/*.txt"]);
    try reflexivity.
  intros f [<-|[]]. reflexivity.
Defined.

Lemma commit_unmodified_and_repeated_witness :
  exists r1,
    commitFileAsync outDir 18 emptyDisk (storeOf []) newFile = Ok r1
    /\ existsb isWrite (c_trace r1) = true
    /\ exists r2,
         commitFileAsync outDir 18 (c_disk r1) (c_store r1) newFile = Ok r2
         /\ existsb isWrite (c_trace r2) = true
         /\ existsb isChmod (c_trace r2) = false.
Proof.
  assert (Hne : outDir (path newFile) <> path newFile) by (cbv; discriminate).
  eexists. split; [reflexivity|].
  destruct (commit_unmodified_and_repeated outDir 18 emptyDisk (storeOf [])
              newFile "bar" _ eq_refl eq_refl Hne eq_refl) as (_ & Hw & _ & H2).
  split; [exact Hw|exact H2].
Defined.

Lemma read_missing_or_deleted_witness :
  (* a path that is nowhere, with no default, with '' and with null *)
  fst (read (env "/a" oneOnDisk) (storeOf []) "/a/nowhere.txt"
         {| raw := false; defaults := None |}) = Err (ReadError "/a/nowhere.txt")
  /\ fst (read (env "/a" oneOnDisk) (storeOf []) "/a/nowhere.txt"
            {| raw := false; defaults := Some (Some "") |}) = Ok (Some "")
  /\ fst (read (env "/a" oneOnDisk) (storeOf []) "/a/nowhere.txt"
            {| raw := false; defaults := Some None |}) = Ok None
  (* a file on disk, deleted, then read with a default *)
  /\ exists S1,
       deleteAction (env "/a" oneOnDisk) (storeOf []) (FromString "/a/x.txt")
         noDeleteOptions = Ok S1
       /\ fst (read (env "/a" oneOnDisk) S1 "/a/x.txt"
                 {| raw := false; defaults := Some (Some "foo") |}) = Ok (Some "foo").
Proof.
  split; [|split; [|split]].
  - apply (read_missing_or_deleted (env "/a" oneOnDisk) (storeOf [])
             "/a/nowhere.txt" {| raw := false; defaults := None |}).
    left. split; reflexivity.
  - apply (read_missing_or_deleted (env "/a" oneOnDisk) (storeOf [])
             "/a/nowhere.txt" {| raw := false; defaults := Some (Some "") |}).
    left. split; reflexivity.
  - apply (read_missing_or_deleted (env "/a" oneOnDisk) (storeOf [])
             "/a/nowhere.txt" {| raw := false; defaults := Some None |}).
    left. split; reflexivity.
  - eexists. split; [reflexivity|].
    apply (read_missing_or_deleted (env "/a" oneOnDisk) _
             "/a/x.txt" {| raw := false; defaults := Some (Some "foo") |}).
    right. eexists. split; [reflexivity|]. split; reflexivity.
Defined.

End Worked.

(** * Further properties *)

(** ** delete.ts: what [deleteFile] and [deleteAction] do to the store *)

Section DeleteMore.

Variable E : Env.

Lemma find_keyIs_none k l : find (keyIs k) l = None -> ~ In k (map path l).
Proof. intros H Hin. destruct (find_keyIs_in _ _ Hin) as [f Hf]. congruence. Qed.

Lemma peek_in_keys S p {f} : peek E S p = Some f -> In (resolve E p) (map path (files S)).
Proof.
  intros H. rewrite <- (find_keyIs_path H). apply in_map.
  apply find_some in H. tauto.
Qed.

Lemma deleteFile_other_key S p k :
  resolve E p <> k ->
  find (keyIs k) (files (deleteFile E p S)) = find (keyIs k) (files S).
Proof.
  intros Hne. destruct (peek E S p) as [f|] eqn:H.
  - rewrite (deleteFile_loaded E H). simpl. apply find_setKey_other.
    rewrite path_entomb, (find_keyIs_path H). exact Hne.
  - rewrite (deleteFile_fresh E H). simpl.
    rewrite find_setKey_other by (now rewrite path_entomb, path_loadFile).
    destruct (find (keyIs k) (files S)) as [g|] eqn:Hk.
    + now apply find_app_some.
    + rewrite (find_app_none _ Hk). simpl.
      unfold keyIs. rewrite path_loadFile.
      apply String.eqb_neq in Hne. now rewrite Hne.
Qed.

(** The keys after [deleteFile]: the same, or one more at the end. *)
Lemma keys_deleteFile S p :
  map path (files (deleteFile E p S)) = map path (files S)
  \/ (map path (files (deleteFile E p S)) = map path (files S) ++ [resolve E p]
      /\ ~ In (resolve E p) (map path (files S))).
Proof.
  destruct (peek E S p) as [f|] eqn:H.
  - left. apply keys_deleteFile_loaded. exact (peek_in_keys S p H).
  - right. split; [|now apply find_keyIs_none].
    rewrite (deleteFile_fresh E H). simpl.
    rewrite map_path_setKey with (g := loadFile E (resolve E p)).
    + rewrite map_app. simpl. now rewrite path_loadFile.
    + rewrite path_entomb, path_loadFile.
      unfold peek in H. rewrite (find_app_none _ H). simpl.
      unfold keyIs. now rewrite path_loadFile, String.eqb_refl.
Qed.

Lemma deleteIf_frame c ps : forall S k,
  (forall p, In p ps -> c p = true -> resolve E p <> k) ->
  find (keyIs k) (files (deleteIf E c ps S)) = find (keyIs k) (files S).
Proof.
  induction ps as [|q ps IH]; intros S k H; [reflexivity|].
  rewrite deleteIf_cons, IH by (intros p Hp; apply H; now right).
  destruct (c q) eqn:Hc; [|reflexivity].
  apply deleteFile_other_key, H; [now left|exact Hc].
Qed.

Lemma deleteIf_prefix c ps : forall S,
  exists extra, map path (files (deleteIf E c ps S)) = map path (files S) ++ extra.
Proof.
  induction ps as [|q ps IH]; intros S.
  - exists []. now rewrite app_nil_r.
  - rewrite deleteIf_cons.
    destruct (IH (if c q then deleteFile E q S else S)) as [extra Hx].
    rewrite Hx. destruct (c q); [|eauto].
    destruct (keys_deleteFile S q) as [->|[-> _]]; [eauto|].
    rewrite <- app_assoc. eauto.
Qed.

Lemma NoDup_deleteFile S p :
  NoDup (map path (files S)) -> NoDup (map path (files (deleteFile E p S))).
Proof.
  intros H. destruct (keys_deleteFile S p) as [->|[-> Hnew]]; [exact H|].
  apply NoDup_append; [exact H|repeat constructor; easy|].
  intros a Ha [<-|[]]. contradiction.
Qed.

Lemma NoDup_deleteIf c ps : forall S,
  NoDup (map path (files S)) -> NoDup (map path (files (deleteIf E c ps S))).
Proof.
  induction ps as [|q ps IH]; intros S H; [exact H|].
  rewrite deleteIf_cons. apply IH.
  destruct (c q); [now apply NoDup_deleteFile|exact H].
Qed.

Lemma deleteGlobbed_prefix pats o S :
  exists extra,
    map path (files (deleteGlobbed E pats o S)) = map path (files S) ++ extra.
Proof.
  unfold deleteGlobbed, deleteMatching, deleteAll. cbv zeta.
  set (found := map (resolve E) _).
  destruct (deleteIf_prefix (hasMatch E pats)
              (map path (files (deleteIf E (fun _ => true) found S)))
              (deleteIf E (fun _ => true) found S)) as [x2 H2].
  destruct (deleteIf_prefix (fun _ => true) found S) as [x1 H1].
  exists (x1 ++ x2). now rewrite H2, H1, <- app_assoc.
Qed.

(** What a successful [deleteAction] computed. *)
Lemma deleteAction_inv S paths o {S1} :
  deleteAction E S paths o = Ok S1 ->
  exists onStoreFiles notFound pats,
    classifyAll E S (asArray paths) = Ok (onStoreFiles, notFound)
    /\ globify E notFound = Ok pats
    /\ S1 = deleteAll E onStoreFiles (deleteGlobbed E pats o S).
Proof.
  unfold deleteAction.
  destruct (classifyAll E S (asArray paths)) as [[on nf]|]; simpl; [|discriminate].
  destruct (globify E nf) as [pats|] eqn:Hg; simpl; [|discriminate].
  intros [= <-]. now exists on, nf, pats.
Qed.

Lemma classify_steps S on nf p {on' nf'} :
  classify E S (on, nf) p = Ok (on', nf') ->
  (forall x, In x on -> In x on')
  /\ (forall f c, peek E S p = Some f -> contents f = Some c -> In p on').
Proof.
  unfold classify, existsInMemory_call, existsInMemory.
  destruct (legacy S); simpl; [discriminate|].
  destruct (peek E S p) as [f|] eqn:Hp; simpl.
  - rewrite (get_in_memory E Hp). simpl.
    destruct (contents f) as [c|] eqn:Hc.
    + intros [= <- <-]. split.
      * intros x Hx. now apply set_add_intro1.
      * intros. now apply set_add_intro2.
    + destruct (isFileStateDeleted f); simpl; intros [= <- <-];
        (split; [auto|intros g c [= <-]; congruence]).
  - intros [= <- <-]. split; [auto|discriminate].
Qed.

Lemma foldM_classify_onStore S ps : forall on nf on' nf' p f c,
  foldM (classify E S) ps (on, nf) = Ok (on', nf') ->
  In p ps \/ In p on ->
  peek E S p = Some f -> contents f = Some c ->
  In p on'.
Proof.
  induction ps as [|q ps IH]; intros on nf on' nf' p f c H Hin Hp Hc.
  - injection H as <- <-. destruct Hin as [[]|Hin]. exact Hin.
  - change (bind (classify E S (on, nf) q)
              (fun a' => foldM (classify E S) ps a') = Ok (on', nf')) in H.
    destruct (classify E S (on, nf) q) as [[on1 nf1]|] eqn:Hq;
      simpl in H; [|discriminate].
    destruct (classify_steps S on nf q Hq) as [Hkeep Hadd].
    apply (IH on1 nf1 on' nf' p f c H); [|exact Hp|exact Hc].
    destruct Hin as [[<-|Hin]|Hin]; [right; eauto|now left|right; auto].
Qed.

(** X1.  After [deleteFile(path, store)] the store holds, under the resolved
    path, a record without contents and with state deleted; its path, stat
    and history are those of the record [store.get] gave. *)
Theorem deleteFile_leaves_tombstone S p :
  exists g,
    peek E (deleteFile E p S) p = Some g
    /\ contents g = None /\ state g = Some STATE_DELETED
    /\ path g = resolve E p
    /\ stat g = stat (fst (get E S p))
    /\ history g = history (fst (get E S p)).
Proof.
  unfold peek. destruct (peek E S p) as [f|] eqn:H.
  - rewrite (deleteFile_loaded E H), (get_in_memory E H). simpl.
    exists (entomb f). repeat split.
    + rewrite <- (find_keyIs_path H). apply (find_setKey_same (entomb f)).
    + exact (find_keyIs_path H).
  - rewrite (deleteFile_fresh E H). unfold get. rewrite H. simpl.
    exists (entomb (loadFile E (resolve E p))). repeat split.
    + rewrite <- (path_loadFile E (resolve E p)) at 1.
      apply (find_setKey_same (entomb (loadFile E (resolve E p)))).
    + apply path_loadFile.
Qed.

(** X2.  [deleteFile] changes the record of one key only: what the store
    holds under any other key is what it held before. *)
Theorem deleteFile_touches_one_key S p k :
  resolve E p <> k ->
  find (keyIs k) (files (deleteFile E p S)) = find (keyIs k) (files S).
Proof. apply deleteFile_other_key. Qed.

(** X3.  A [deleteAction] that returns never removes or reorders records:
    the keys of the store are the keys it had, in the same order, followed
    by the keys of the records it loaded; the store object keeps its kind. *)
Theorem deleteAction_keeps_keys_in_order S paths o S1 :
  deleteAction E S paths o = Ok S1 ->
  (exists extra, map path (files S1) = map path (files S) ++ extra)
  /\ legacy S1 = legacy S.
Proof.
  intros H. destruct (deleteAction_inv S paths o H) as (on & nf & pats & _ & _ & ->).
  split.
  - destruct (deleteIf_prefix (fun _ => true) on (deleteGlobbed E pats o S))
      as [x2 H2].
    destruct (deleteGlobbed_prefix pats o S) as [x1 H1].
    exists (x1 ++ x2). unfold deleteAll. now rewrite H2, H1, <- app_assoc.
  - unfold deleteAll. now rewrite legacy_deleteIf, legacy_deleteGlobbed.
Qed.

(** X4.  A [deleteAction] that returns leaves a tombstone for every listed
    path that the store held with contents. *)
Theorem deleteAction_tombstones_listed S paths o S1 p f c :
  In p (asArray paths) ->
  peek E S p = Some f -> contents f = Some c ->
  deleteAction E S paths o = Ok S1 ->
  tombed S1 (resolve E p).
Proof.
  intros Hin Hp Hc H.
  destruct (deleteAction_inv S paths o H) as (on & nf & pats & Hcl & _ & ->).
  unfold deleteAll. apply deleteIf_makes; [|reflexivity].
  unfold classifyAll in Hcl.
  eapply foldM_classify_onStore; eauto.
Qed.

(** X5.  A [deleteAction] that returns leaves a tombstone for every file the
    glob found on disk and for every store entry whose normalised path
    matches the patterns. *)
Theorem deleteAction_tombstones_matches S paths o S1 onStoreFiles notFound pats :
  deleteAction E S paths o = Ok S1 ->
  classifyAll E S (asArray paths) = Ok (onStoreFiles, notFound) ->
  globify E notFound = Ok pats ->
  (forall q, In q (globSync E pats (deleteGlobOptions o)) ->
             tombed S1 (resolve E (resolve E q)))
  /\ (forall f, In f (files S) -> hasMatch E pats (path f) = true ->
                tombed S1 (resolve E (path f))).
Proof.
  intros H Hcl Hg.
  destruct (deleteAction_inv S paths o H) as (on & nf & pats' & Hcl' & Hg' & ->).
  rewrite Hcl in Hcl'. injection Hcl' as <- <-.
  rewrite Hg in Hg'. injection Hg' as <-.
  unfold deleteAll, deleteGlobbed, deleteMatching. cbv zeta.
  set (found := map (resolve E) _). split.
  - intros q Hq. do 2 apply deleteIf_keeps.
    apply deleteIf_makes; [|reflexivity]. now apply in_map.
  - intros f Hf Hm. apply deleteIf_keeps. apply deleteIf_makes; [|exact Hm].
    destruct (deleteIf_prefix (fun _ => true) found S) as [x1 H1].
    unfold deleteAll. rewrite H1. apply in_or_app. left. now apply in_map.
Qed.

(** X6.  [deleteAction] never gives a record contents and never lifts a
    tombstone: a record with contents after the call is the record the store
    held before, and a key that held a tombstone still holds one. *)
Theorem deleteAction_never_revives S paths o S1 :
  deleteAction E S paths o = Ok S1 ->
  (forall k f c, find (keyIs k) (files S1) = Some f -> contents f = Some c ->
                 find (keyIs k) (files S) = Some f)
  /\ (forall k, tombed S k -> tombed S1 k).
Proof.
  intros H. destruct (deleteAction_inv S paths o H) as (on & nf & pats & _ & _ & ->).
  split.
  - intros k f c Hf Hc. unfold deleteAll in Hf.
    apply (deleteGlobbed_live_back E pats o S k f c); [|exact Hc].
    eapply deleteIf_live_back; eauto.
  - intros k Hk. unfold deleteAll, deleteGlobbed, deleteMatching.
    now do 3 apply deleteIf_keeps.
Qed.

Section Resolved.

Hypothesis resolve_idem : forall q, resolve E (resolve E q) = resolve E q.

(** X7.  [deleteAction] leaves alone every record it was not asked to
    delete: a key that is not the resolved form of a listed store file or of
    a file the glob found, and that does not match the patterns, holds after
    the call what it held before. *)
Theorem deleteAction_frame S paths o S1 onStoreFiles notFound pats k :
  canonical E S ->
  deleteAction E S paths o = Ok S1 ->
  classifyAll E S (asArray paths) = Ok (onStoreFiles, notFound) ->
  globify E notFound = Ok pats ->
  (forall p, In p onStoreFiles -> resolve E p <> k) ->
  (forall q, In q (globSync E pats (deleteGlobOptions o)) -> resolve E q <> k) ->
  hasMatch E pats k = false ->
  find (keyIs k) (files S1) = find (keyIs k) (files S).
Proof.
  intros HS H Hcl Hg Hon Hfound Hm.
  destruct (deleteAction_inv S paths o H) as (on & nf & pats' & Hcl' & Hg' & ->).
  rewrite Hcl in Hcl'. injection Hcl' as <- <-.
  rewrite Hg in Hg'. injection Hg' as <-.
  unfold deleteAll, deleteGlobbed, deleteMatching.
  set (found := map (resolve E) (globSync E pats (deleteGlobOptions o))).
  assert (HS1 : canonical E (deleteIf E (fun _ => true) found S))
    by (now apply canonical_deleteIf).
  rewrite deleteIf_frame by (intros p Hp _; now apply Hon).
  rewrite deleteIf_frame.
  - apply deleteIf_frame. intros p Hp _.
    apply in_map_iff in Hp. destruct Hp as (q & <- & Hq).
    rewrite resolve_idem. now apply Hfound.
  - intros p Hp Hmp. apply in_map_iff in Hp. destruct Hp as (f & <- & Hf).
    pose proof (HS1 f Hf) as Hcan. unfold deleteAll in Hcan.
    intros Hk. rewrite Hcan in Hk. subst k. congruence.
Qed.

(** X9.  [deleteAction] keeps the store well formed: when every key is a
    resolved path and no key occurs twice, the same holds after the call. *)
Theorem deleteAction_keeps_store_wellformed S paths o S1 :
  canonical E S ->
  NoDup (map path (files S)) ->
  deleteAction E S paths o = Ok S1 ->
  canonical E S1 /\ NoDup (map path (files S1)).
Proof.
  intros HS Hnd H.
  destruct (deleteAction_inv S paths o H) as (on & nf & pats & _ & _ & ->).
  unfold deleteAll, deleteGlobbed, deleteMatching. cbv zeta. split.
  - do 3 (apply canonical_deleteIf; [exact resolve_idem|]). exact HS.
  - do 3 apply NoDup_deleteIf. exact Hnd.
Qed.

End Resolved.

(** X8.  [deleteAction] with an empty array returns the store as it is, on
    any store, when the glob library matches nothing for no pattern. *)
Theorem deleteAction_of_nothing S o :
  (forall g, globSync E [] g = []) ->
  (forall x, multimatch E [x] [] = []) ->
  deleteAction E S (FromArray []) o = Ok S.
Proof.
  intros Hglob Hmm. unfold deleteAction. simpl.
  now rewrite (deleteGlobbed_nil E Hglob Hmm).
Qed.

End DeleteMore.

(** ** copy-async.ts: errors, destinations and the store *)

Section CopyMore.

Variable E : Env.

(** X11.  [ignoreNoMatch] lifts the no-source-matched assertion only.  With
    it set and nothing matched, a copy that is not the copy of one existing
    file starts no copy and returns when [to] does not exist; when sources
    were left to glob and [to] exists as a regular file on disk, the
    destination assertion still fails. *)
Theorem ignoreNoMatch_keeps_destination_check S from to options context r :
  fastPath E S from = None ->
  resolveSources E S from options = Ok r ->
  ignoreNoMatch options = true ->
  diskFiles r = [] -> storeFiles r = [] ->
  (exists_ E S (resolve E to) = false ->
   copyAsync E S from to options context = Ok [])
  /\ (globResolved r <> [] ->
      exists_ E S (resolve E to) = true ->
      statSync_isDirectory E (resolve E to) = Ok false ->
      copyAsync E S from to options context = Err DestinationShapeError).
Proof.
  intros Hfast Hres Hign Hd Hs. unfold copyAsync.
  rewrite Hfast, Hres. simpl. rewrite Hign, Hd, Hs. simpl. split.
  - intros Hex. unfold destinationOf. rewrite Hex. simpl.
    now destruct (treatToAsDir E from options r).
  - intros Hne Hex Hstat. unfold destinationOf, treatToAsDir.
    apply nonEmpty_true in Hne. rewrite Hne, !orb_true_r, Hex, Hstat.
    reflexivity.
Qed.

(** X12.  The layout of a copy into a directory: every disk match is handed
    to [_copySingleAsync] and every store file to [_copySingle], in that
    order, and a file goes to its path relative to the common base of the
    sources, joined onto [to], passed through [processDestinationPath] and
    then rendered. *)
Theorem copyAsync_directory_layout S from to options context r calls :
  fastPath E S from = None ->
  resolveSources E S from options = Ok r ->
  treatToAsDir E from options r = true ->
  copyAsync E S from to options context = Ok calls ->
  let place := match processDestinationPath options with
               | Some g => g
               | None => fun p => p
               end in
  let destination file :=
    renderFilepath E
      (place (join E (resolve E to) (relative E (getCommonPath E from) file)))
      context in
  calls = map (fun file => CopySingleAsync file (destination file)) (diskFiles r)
          ++ map (fun file => CopySingle file (destination file)) (storeFiles r).
Proof.
  intros Hfast Hres Hdir. unfold copyAsync. rewrite Hfast, Hres. simpl.
  destruct (negb _); [discriminate|].
  unfold destinationOf. rewrite Hdir.
  destruct (if negb (exists_ E S (resolve E to)) then Ok true
            else statSync_isDirectory E (resolve E to)) as [[|]|];
    simpl; try discriminate.
  now intros [= <-].
Qed.

Lemma scanStore_keys diskFiles patterns S :
  scanStore E diskFiles patterns S =
  filter (fun k =>
            negb (includes diskFiles (normalize E k))
            && negb (isDynamicPattern E (normalize E k))
            && nonEmpty (multimatch E [normalize E k] patterns))
         (map path (files S)).
Proof.
  unfold scanStore, virtualMatch.
  induction (files S) as [|f l IH]; simpl; [reflexivity|].
  destruct (_ && _ && _); simpl; now rewrite IH.
Qed.

Lemma existsInMemory_deleteFile S p f q :
  peek E S p = Some f ->
  existsInMemory E (deleteFile E p S) q = existsInMemory E S q.
Proof.
  intros Hp. unfold existsInMemory, peek.
  destruct (string_dec (resolve E p) (resolve E q)) as [Heq|Hne].
  - rewrite <- Heq.
    destruct (deleteFile_makes_tomb E S p) as (g & Hg & _).
    unfold peek in Hp. now rewrite Hg, Hp.
  - now rewrite deleteFile_other_key.
Qed.

(** X13.  Resolving the sources of a copy looks at the keys of the store
    only, not at contents or state: after [deleteFile] of a loaded path the
    same disk matches and store files are resolved, so a record that was
    deleted in the store is still listed when it is named or matches. *)
Theorem resolveSources_ignores_deletion S p f from options :
  peek E S p = Some f ->
  resolveSources E (deleteFile E p S) from options = resolveSources E S from options.
Proof.
  intros Hp.
  assert (Hin : forall r, inStore E (deleteFile E p S) r = inStore E S r).
  { intros r. unfold inStore, existsInMemory_opt.
    now rewrite legacy_deleteFile, (existsInMemory_deleteFile S p f). }
  assert (Hscan : forall d pats,
            scanStore E d pats (deleteFile E p S) = scanStore E d pats S).
  { intros d pats. rewrite !scanStore_keys.
    now rewrite (keys_deleteFile_loaded E S p (peek_in_keys E S p Hp)). }
  unfold resolveSources, literalStoreFiles, globResolvedOf.
  rewrite (filter_ext _ _ Hin).
  rewrite (filter_ext (fun r => negb (inStore E (deleteFile E p S) r))
             (fun r => negb (inStore E S r))) by (intros r; now rewrite Hin).
  destruct (nonEmpty _); [|reflexivity].
  destruct (flatMapM _ _); simpl; [|reflexivity].
  now rewrite Hscan.
Qed.

(** X14.  Every store file of a copy is a record the store holds: a source
    the store was asked for, or a key the scan met.  The store keys are
    taken to be resolved paths. *)
Theorem storeFiles_are_loaded S from options r p :
  canonical E S ->
  resolveSources E S from options = Ok r ->
  In p (storeFiles r) ->
  existsInMemory E S p = true.
Proof.
  intros HS Hres Hin.
  assert (Hlit : forall q, In q (literalStoreFiles E S
                     (resolveFromPaths E from (getCommonPath E from))) ->
                   existsInMemory E S q = true).
  { intros q Hq. unfold literalStoreFiles in Hq.
    apply in_map_iff in Hq. destruct Hq as (r0 & <- & Hr0).
    apply filter_In in Hr0. destruct Hr0 as [_ Hst].
    unfold inStore, existsInMemory_opt in Hst.
    now destruct (legacy S). }
  assert (Hsc : forall d pats q, In q (scanStore E d pats S) ->
                   existsInMemory E S q = true).
  { intros d pats q Hq. apply scanStore_spec in Hq.
    destruct Hq as (file & Hfile & <- & _).
    unfold existsInMemory, peek. rewrite (HS file Hfile).
    destruct (find_keyIs_in (path file) (files S)) as [g ->]; [|reflexivity].
    now apply in_map. }
  unfold resolveSources in Hres.
  destruct (nonEmpty _).
  - destruct (flatMapM _ _) as [pats|]; simpl in Hres; [|discriminate].
    injection Hres as <-. simpl in Hin.
    apply in_app_or in Hin. destruct Hin as [Hin|Hin]; eauto.
  - injection Hres as <-. simpl in Hin. auto.
Qed.

Lemma filter_none {A} (c : A -> bool) l :
  (forall a, c a = false) -> filter c l = [].
Proof.
  intros H. induction l as [|a l IH]; simpl; [reflexivity|]. now rewrite H.
Qed.

Lemma filter_all {A} (c : A -> bool) l :
  (forall a, c a = true) -> filter c l = l.
Proof.
  intros H. induction l as [|a l IH]; simpl; [reflexivity|]. now rewrite H, IH.
Qed.

(** X15.  On a store without [existsInMemory] no source is taken from the
    store directly: every source is left to glob, the store files are the
    entries the scan adds, and a copy that is not the copy of one existing
    file and has a source treats [to] as a directory. *)
Theorem legacy_store_globs_every_source S from options r :
  legacy S = true ->
  resolveSources E S from options = Ok r ->
  globResolved r = resolveFromPaths E from (getCommonPath E from)
  /\ (forall p, In p (storeFiles r) -> In p (map path (files S)))
  /\ (resolveFromPaths E from (getCommonPath E from) <> [] ->
      treatToAsDir E from options r = true).
Proof.
  intros Hl Hres.
  assert (Hno : forall r0, inStore E S r0 = false)
    by (intros r0; unfold inStore, existsInMemory_opt; now rewrite Hl).
  unfold resolveSources, literalStoreFiles, globResolvedOf in Hres.
  rewrite (filter_none _ _ Hno) in Hres.
  rewrite filter_all in Hres by (intros a; now rewrite Hno).
  assert (Hg : globResolved r = resolveFromPaths E from (getCommonPath E from)).
  { destruct (nonEmpty _).
    - destruct (flatMapM _ _); simpl in Hres; [|discriminate]. now injection Hres as <-.
    - now injection Hres as <-. }
  split; [exact Hg|]. split.
  - intros p Hp. destruct (nonEmpty _).
    + destruct (flatMapM _ _) as [pats|]; simpl in Hres; [|discriminate].
      injection Hres as <-. simpl in Hp.
      apply scanStore_spec in Hp. destruct Hp as (file & Hfile & <- & _).
      now apply in_map.
    + injection Hres as <-. destruct Hp.
  - intros Hne. unfold treatToAsDir. rewrite Hg.
    apply nonEmpty_true in Hne. rewrite Hne. now rewrite orb_true_r.
Qed.

(** X16.  A single-file copy with a [processFile] hook: a rejection of the
    hook is the error of the copy, whatever the other options; and when the
    hook resolves and the copy is not an append onto a destination the store
    holds, the source has to be on disk for [fs.stat], else the copy fails
    with the error of [stat] even though the new contents are known. *)
Theorem hooked_copy_failures S from to options pf :
  processFile options = Some pf ->
  (forall e, pf (resolve E from) = Err e ->
             _copySingleAsync E S from to options = Err e)
  /\ (forall c, pf (resolve E from) = Ok c ->
        append options = false \/ existsInMemory_opt E S to = Some false ->
        disk E (resolve E from) = None ->
        _copySingleAsync E S from to options = Err (IOError (resolve E from))).
Proof.
  intros Hpf. unfold _copySingleAsync, applyProcessingFileFunc. rewrite Hpf. split.
  - intros e ->. reflexivity.
  - intros c -> Hplain Hdisk. simpl. unfold fsStat. rewrite Hdisk. simpl.
    destruct Hplain as [->| ->]; [reflexivity|].
    now destruct (append options).
Qed.

End CopyMore.

(** ** Worked cases for the further properties *)

Section WorkedMore.

Import Posix Cases.

Lemma deleteFile_touches_one_key_witness :
  find (keyIs "/a/y.txt")
       (files (deleteFile (env "/a" oneOnDisk) "/a/x.txt"
                 (storeOf [memFile "/a/y.txt" "Y"])))
  = Some (memFile "/a/y.txt" "Y").
Proof.
  rewrite (deleteFile_touches_one_key (env "/a" oneOnDisk)
             (storeOf [memFile "/a/y.txt" "Y"]) "/a/x.txt" "/a/y.txt")
    by (cbv; discriminate).
  reflexivity.
Defined.

Lemma deleteAction_keeps_keys_in_order_witness :
  exists S1,
    deleteAction (env "/a" oneOnDisk) (storeOf [memFile "/a/y.txt" "Y"])
      (FromString "/a/x.txt") noDeleteOptions = Ok S1
    /\ (exists extra, map path (files S1) = ["/a/y.txt"] ++ extra)
    /\ legacy S1 = false.
Proof.
  eexists. split; [reflexivity|].
  exact (deleteAction_keeps_keys_in_order (env "/a" oneOnDisk)
           (storeOf [memFile "/a/y.txt" "Y"]) (FromString "/a/x.txt")
           noDeleteOptions _ eq_refl).
Defined.

Lemma deleteAction_tombstones_listed_witness :
  exists S1,
    deleteAction (env "/a" oneOnDisk)
      (storeOf [memFile "/a/y.txt" "Y"; memFile "/a/z.txt" "Z"])
      (FromArray ["/a/z.txt"; "/a/y.txt"]) noDeleteOptions = Ok S1
    /\ tombed S1 "/a/y.txt".
Proof.
  eexists. split; [reflexivity|].
  apply (deleteAction_tombstones_listed (env "/a" oneOnDisk)
           (storeOf [memFile "/a/y.txt" "Y"; memFile "/a/z.txt" "Z"])
           (FromArray ["/a/z.txt"; "/a/y.txt"]) noDeleteOptions _
           "/a/y.txt" (memFile "/a/y.txt" "Y") "Y").
  - right. left. reflexivity.
  - reflexivity.
  - reflexivity.
  - reflexivity.
Defined.

Lemma deleteAction_tombstones_matches_witness :
  exists S1,
    deleteAction (env "/a" oneOnDisk) (storeOf [memFile "/a/y.txt" "Y"])
      (FromString "/a/*.txt") noDeleteOptions = Ok S1
    /\ tombed S1 "/a/x.txt" /\ tombed S1 "/a/y.txt".
Proof.
  eexists. split; [reflexivity|].
  destruct (deleteAction_tombstones_matches (env "/a" oneOnDisk)
              (storeOf [memFile "/a/y.txt" "Y"]) (FromString "/a/*.txt")
              noDeleteOptions _ [] ["/a/*.txt"] ["/a/*.txt"]
              eq_refl eq_refl eq_refl) as [Hdisk Hstore].
  split.
  - apply (Hdisk "/a/x.txt"). left. reflexivity.
  - apply (Hstore (memFile "/a/y.txt" "Y")); [left|]; reflexivity.
Defined.

Lemma deleteAction_never_revives_witness :
  exists S1,
    deleteAction (env "/a" oneOnDisk)
      (storeOf [tombstone "/a/z.txt"; memFile "/a/y.txt" "Y"])
      (FromString "/a/y.txt") noDeleteOptions = Ok S1
    /\ tombed S1 "/a/z.txt".
Proof.
  eexists. split; [reflexivity|].
  destruct (deleteAction_never_revives (env "/a" oneOnDisk)
              (storeOf [tombstone "/a/z.txt"; memFile "/a/y.txt" "Y"])
              (FromString "/a/y.txt") noDeleteOptions _ eq_refl) as [_ Hkeep].
  apply Hkeep. exists (tombstone "/a/z.txt"). repeat split.
Defined.

Lemma deleteAction_frame_witness :
  exists S1,
    deleteAction (env "/a" oneOnDisk)
      (storeOf [memFile "/a/y.txt" "Y"; memFile "/b/k.txt" "K"])
      (FromString "/a/*.txt") noDeleteOptions = Ok S1
    /\ find (keyIs "/b/k.txt") (files S1) = Some (memFile "/b/k.txt" "K").
Proof.
  eexists. split; [reflexivity|].
  rewrite (deleteAction_frame (env "/a" oneOnDisk) (fun q => eq_refl)
             (storeOf [memFile "/a/y.txt" "Y"; memFile "/b/k.txt" "K"])
             (FromString "/a/*.txt") noDeleteOptions _
             [] ["/a/*.txt"] ["/a/*.txt"] "/b/k.txt").
  - reflexivity.
  - intros f _. reflexivity.
  - reflexivity.
  - reflexivity.
  - reflexivity.
  - intros p [].
  - intros q [<-|[]]. cbv. discriminate.
  - reflexivity.
Defined.

Lemma deleteAction_of_nothing_witness :
  deleteAction (env "/a" oneOnDisk) (legacyStore [memFile "/a/y.txt" "Y"])
    (FromArray []) noDeleteOptions
  = Ok (legacyStore [memFile "/a/y.txt" "Y"]).
Proof.
  apply (deleteAction_of_nothing (env "/a" oneOnDisk)
           (legacyStore [memFile "/a/y.txt" "Y"]) noDeleteOptions
           (fun g => eq_refl) (fun x => eq_refl)).
Defined.

Lemma deleteAction_keeps_store_wellformed_witness :
  exists S1,
    deleteAction (env "/a" oneOnDisk) (storeOf [memFile "/a/y.txt" "Y"])
      (FromString "/a/*.txt") noDeleteOptions = Ok S1
    /\ canonical (env "/a" oneOnDisk) S1 /\ NoDup (map path (files S1)).
Proof.
  eexists. split; [reflexivity|].
  apply (deleteAction_keeps_store_wellformed (env "/a" oneOnDisk)
           (fun q => eq_refl) (storeOf [memFile "/a/y.txt" "Y"])
           (FromString "/a/*.txt") noDeleteOptions).
  - intros f _. reflexivity.
  - constructor; [intros []|constructor].
  - reflexivity.
Defined.

Lemma ignoreNoMatch_keeps_destination_check_witness :
  copyAsync (env "/a" withOut) (storeOf []) (FromString "/b/*.txt") "/out"
    {| processFile := None; append := false; globOptions := None;
       processDestinationPath := None; ignoreNoMatch := true |} None
  = Err DestinationShapeError
  /\ copyAsync (env "/a" withOut) (storeOf []) (FromString "/b/*.txt") "/new"
       {| processFile := None; append := false; globOptions := None;
          processDestinationPath := None; ignoreNoMatch := true |} None
     = Ok [].
Proof.
  split.
  - destruct (ignoreNoMatch_keeps_destination_check (env "/a" withOut) (storeOf [])
                (FromString "/b/*.txt") "/out"
                {| processFile := None; append := false; globOptions := None;
                   processDestinationPath := None; ignoreNoMatch := true |} None
                _ eq_refl eq_refl eq_refl eq_refl eq_refl) as [_ Hfile].
    apply Hfile; [discriminate|reflexivity|reflexivity].
  - destruct (ignoreNoMatch_keeps_destination_check (env "/a" withOut) (storeOf [])
                (FromString "/b/*.txt") "/new"
                {| processFile := None; append := false; globOptions := None;
                   processDestinationPath := None; ignoreNoMatch := true |} None
                _ eq_refl eq_refl eq_refl eq_refl eq_refl) as [Hnew _].
    apply Hnew. reflexivity.
Defined.

Lemma copyAsync_directory_layout_witness :
  exists calls,
    copyAsync (env "/a" oneOnDisk) (storeOf [memFile "/a/y.txt" "Y"])
      (FromString "/a/*.txt") "/out" plain None = Ok calls
    /\ calls = [CopySingleAsync "/a/x.txt" "/out/x.txt";
                CopySingle "/a/y.txt" "/out/y.txt"].
Proof.
  eexists. split; [reflexivity|].
  exact (copyAsync_directory_layout (env "/a" oneOnDisk)
           (storeOf [memFile "/a/y.txt" "Y"]) (FromString "/a/*.txt") "/out"
           plain None
           {| diskFiles := ["/a/x.txt"]; storeFiles := ["/a/y.txt"];
              globResolved := [starTxt] |}
           _ eq_refl eq_refl eq_refl eq_refl).
Defined.

Lemma resolveSources_ignores_deletion_witness :
  resolveSources (env "/a" oneOnDisk)
    (deleteFile (env "/a" oneOnDisk) "/a/y.txt" (storeOf [memFile "/a/y.txt" "Y"]))
    (FromString "/a/*.txt") plain
  = Ok {| diskFiles := ["/a/x.txt"]; storeFiles := ["/a/y.txt"];
          globResolved := [starTxt] |}.
Proof.
  rewrite (resolveSources_ignores_deletion (env "/a" oneOnDisk)
             (storeOf [memFile "/a/y.txt" "Y"]) "/a/y.txt"
             (memFile "/a/y.txt" "Y") (FromString "/a/*.txt") plain eq_refl).
  reflexivity.
Defined.

Lemma storeFiles_are_loaded_witness :
  existsInMemory (env "/a" oneOnDisk) (storeOf [memFile "/a/y.txt" "Y"]) "/a/y.txt"
  = true.
Proof.
  apply (storeFiles_are_loaded (env "/a" oneOnDisk)
           (storeOf [memFile "/a/y.txt" "Y"]) (FromString "/a/*.txt") plain
           {| diskFiles := ["/a/x.txt"]; storeFiles := ["/a/y.txt"];
              globResolved := [starTxt] |} "/a/y.txt").
  - intros f _. reflexivity.
  - reflexivity.
  - left. reflexivity.
Defined.

Lemma legacy_store_globs_every_source_witness :
  exists r,
    resolveSources (env "/a" []) (legacyStore [memFile "/a/y.txt" "Y"])
      (FromString "/a/y.txt") plain = Ok r
    /\ globResolved r = [{| rfrom := "/a/y.txt"; resolvedFrom := "/a/y.txt" |}]
    /\ treatToAsDir (env "/a" []) (FromString "/a/y.txt") plain r = true.
Proof.
  eexists. split; [reflexivity|].
  destruct (legacy_store_globs_every_source (env "/a" [])
              (legacyStore [memFile "/a/y.txt" "Y"]) (FromString "/a/y.txt") plain
              _ eq_refl eq_refl) as (Hg & _ & Hdir).
  split; [exact Hg|]. apply Hdir. cbv. discriminate.
Defined.

Lemma hooked_copy_failures_witness :
  _copySingleAsync (env "/a" []) (storeOf [memFile "/a/s.txt" "S"])
    "/a/s.txt" "/out/d.txt"
    {| processFile := Some (fun _ => Ok "B"); append := false; globOptions := None;
       processDestinationPath := None; ignoreNoMatch := false |}
  = Err (IOError "/a/s.txt").
Proof.
  destruct (hooked_copy_failures (env "/a" []) (storeOf [memFile "/a/s.txt" "S"])
              "/a/s.txt" "/out/d.txt"
              {| processFile := Some (fun _ => Ok "B"); append := false;
                 globOptions := None; processDestinationPath := None;
                 ignoreNoMatch := false |}
              (fun _ => Ok "B") eq_refl) as [_ Hstat].
  apply (Hstat "B"); [reflexivity|left; reflexivity|reflexivity].
Defined.

End WorkedMore.
